(** * The numeric-range engine of package [yang]

    A shallow embedding of [Number], [YRange] and [YangRange]
    (number parsing and rendering, ordering, validation, coalescing and
    containment of interval sets), followed by the properties established
    about them.

    Go values are modelled as follows.
    - [uint64] and [int64] are integers of [Z]; every operation that can
      wrap in Go wraps explicitly through [to_uint64] / [to_int64].
    - [string] is a byte string, [String.string].
    - [float64] is an IEEE-754 binary64 datum, [spec_float].
    - a Go result pair [(v, err)] is a Rocq pair whose second component is
      an [option error]; [None] is [nil].
    - a slice that a method mutates in place is threaded through: the
      method returns the new contents next to its result. *)

From Stdlib Require Import ZArith List Bool Lia Ascii String.
From Stdlib Require Import Floats.SpecFloat.
From Stdlib Require Import Sorting.Permutation Sorting.Sorted.
From Stdlib Require Import FunInd.
Import ListNotations.

Open Scope string_scope.
Open Scope Z_scope.

(** ** Machine integers *)

Definition uint64 := Z.
Definition int64 := Z.

Definition to_uint64 (z : Z) : uint64 := z mod 2 ^ 64.
Definition to_int64 (z : Z) : int64 := (z + 2 ^ 63) mod 2 ^ 64 - 2 ^ 63.

Definition maxUint64 : uint64 := 2 ^ 64 - 1.

(** ** Errors

    One constructor per error value the engine can return.  [ErrSyntax] and
    [ErrRange] stand for the [*strconv.NumError] values wrapping
    [strconv.ErrSyntax] and [strconv.ErrRange]. *)

Inductive error : Type :=
| ErrEmptyString                      (* "converting empty string to number" *)
| ErrSignNoValue                      (* "sign with no value" *)
| ErrTooManyDots                      (* "can't convert to decimal: too many .s" *)
| ErrSyntax                           (* strconv: invalid syntax *)
| ErrRange                            (* strconv: value out of range *)
| ErrTooManyDotDots (s : string)      (* "two many ..'s in %s" *)
| ErrLessThan (max min : string)      (* "%s less than %s" *)
| ErrInvalidNumber                    (* "invalid number" *)
| ErrOverlapping                      (* "overlapping ranges" *)
| ErrOverflow.                        (* "signed integer overflow" *)

(** ** The Go library functions the engine calls *)

Definition byte_of (c : ascii) : Z := Z.of_N (N_of_ascii c).
Definition ascii_of (z : Z) : ascii := ascii_of_N (Z.to_N z).

(** [lower(c) = c | ('x' - 'X')] of package strconv. *)
Definition lower (c : Z) : Z := Z.lor c 32.

Definition is_digit (c : Z) : bool := (48 <=? c) && (c <=? 57).

Module strings.

(** White space as [unicode.IsSpace] sees it, on the UTF-8 encoding:
    the six ASCII characters, then the two-byte and three-byte encodings of
    U+0085, U+00A0, U+1680, U+2000..U+200A, U+2028, U+2029, U+202F,
    U+205F and U+3000.  Any other byte, a stray continuation byte
    included, is not white space. *)
Definition space1 (a : Z) : bool :=
  ((9 <=? a) && (a <=? 13)) || (a =? 32).

Definition space2 (a b : Z) : bool :=
  (a =? 194) && ((b =? 133) || (b =? 160)).

Definition space3 (a b c : Z) : bool :=
  ((a =? 225) && (b =? 154) && (c =? 128))
  || ((a =? 226) && (b =? 128)
      && (((128 <=? c) && (c <=? 138)) || (c =? 168) || (c =? 169) || (c =? 175)))
  || ((a =? 226) && (b =? 129) && (c =? 159))
  || ((a =? 227) && (b =? 128) && (c =? 128)).

(** The scan that drops white space from the front of a string, rune by
    rune.  [p1], [p2] and [p3] recognise a white-space rune of one, two and
    three bytes. *)
Section Trim.
Variable p1 : Z -> bool.
Variable p2 : Z -> Z -> bool.
Variable p3 : Z -> Z -> Z -> bool.

Fixpoint trim_runes (s : string) : string :=
  match s with
  | EmptyString => EmptyString
  | String c1 r1 =>
      if p1 (byte_of c1) then trim_runes r1
      else
        match r1 with
        | EmptyString => s
        | String c2 r2 =>
            if p2 (byte_of c1) (byte_of c2) then trim_runes r2
            else
              match r2 with
              | EmptyString => s
              | String c3 r3 =>
                  if p3 (byte_of c1) (byte_of c2) (byte_of c3)
                  then trim_runes r3
                  else s
              end
        end
  end.
End Trim.

Fixpoint rev_append (s acc : string) : string :=
  match s with
  | EmptyString => acc
  | String c r => rev_append r (String c acc)
  end.

Definition rev (s : string) : string := rev_append s EmptyString.

(** [TrimLeftFunc(s, unicode.IsSpace)]. *)
Definition TrimLeft (s : string) : string :=
  trim_runes space1 space2 space3 s.

(** [TrimRightFunc(s, unicode.IsSpace)]: the same scan from the end of the
    string, where the bytes of a rune are met last byte first. *)
Definition TrimRight (s : string) : string :=
  rev (trim_runes space1 (fun a b => space2 b a) (fun a b c => space3 c b a)
         (rev s)).

(** [strings.TrimSpace]. *)
Definition TrimSpace (s : string) : string := TrimRight (TrimLeft s).

(** [strings.Split(s, sep)] for a non-empty separator: [s] is cut at every
    occurrence of [sep], found from the left and not overlapping.  [skip]
    counts the bytes of a separator still to be passed over; [cur] is the
    piece being read, last byte first.  (The engine only splits on the
    constants ["|"], [".."] and ["."].) *)
Fixpoint Split_from (sep : string) (s : string) (skip : nat) (cur : string)
  : list string :=
  match s with
  | EmptyString => [rev cur]
  | String c r =>
      match skip with
      | S k => Split_from sep r k cur
      | O =>
          if prefix sep s
          then rev cur :: Split_from sep r (Nat.pred (String.length sep)) EmptyString
          else Split_from sep r O (String c cur)
      end
  end.

Definition Split (s sep : string) : list string := Split_from sep s O EmptyString.

End strings.

(** IEEE-754 binary64 values and the two conversions the engine needs. *)
Module float64.

Definition t : Type := spec_float.

Definition prec : Z := 53.
Definition emax : Z := 1024.

Definition zero : t := S754_zero false.

(** Go's [==] on float64: a NaN differs from everything, the two zeros are
    equal. *)
Definition eqb (x y : t) : bool := SFeqb x y.

(** The binary64 nearest to [m * 2^e], ties to even. *)
Definition of_scaled (neg : bool) (m e : Z) : t :=
  binary_normalize prec emax (if neg then - m else m) e neg.

(** The binary64 nearest to [m * 10^e10].  For a negative exponent the
    quotient is taken with 65 bits and more, and a last bit records
    whether the division left a remainder, so that the rounding of
    [of_scaled] is the rounding of the exact value. *)
Definition of_decimal (neg : bool) (m e10 : Z) : t :=
  if m =? 0 then S754_zero neg
  else if 0 <=? e10 then of_scaled neg (m * 10 ^ e10) 0
  else
    let d := 10 ^ (- e10) in
    let s := 65 + Z.log2 d in
    let q := (m * 2 ^ s) / d in
    let sticky := if (m * 2 ^ s) mod d =? 0 then 0 else 1 in
    of_scaled neg (2 * q + sticky) (- s - 1).

(** The integer part of a finite value. *)
Definition trunc (f : t) : option Z :=
  match f with
  | S754_zero _ => Some 0
  | S754_finite s m e =>
      let a := Z.shiftl (Zpos m) e in Some (if s then - a else a)
  | _ => None
  end.

(** The conversion [uint64(f)].  Go defines it when the integer part of
    [f] fits in 64 bits; otherwise the result depends on the platform.  The
    model takes [2^63] for a float of [2^64] or more, for an infinity and for
    a NaN, as Go gives on amd64, and wraps a negative integer part modulo
    [2^64].  Nothing below depends on that choice. *)
Definition to_uint64 (f : t) : uint64 :=
  match trunc f with
  | Some z => if z <? 2 ^ 64 then z mod 2 ^ 64 else 2 ^ 63
  | None => 2 ^ 63
  end.

Definition is_inf (f : t) : bool :=
  match f with S754_infinity _ => true | _ => false end.

End float64.

Module strconv.

(** *** underscoreOK *)

Inductive seen : Type := SeenStart | SeenDigit | SeenUnderscore | SeenOther.

Definition seen_digit (w : seen) : bool :=
  match w with SeenDigit => true | _ => false end.
Definition seen_underscore (w : seen) : bool :=
  match w with SeenUnderscore => true | _ => false end.

Fixpoint underscoreOK_from (hex : bool) (s : string) (saw : seen) : bool :=
  match s with
  | EmptyString => negb (seen_underscore saw)
  | String ch r =>
      let c := byte_of ch in
      if is_digit c || (hex && (97 <=? lower c) && (lower c <=? 102))
      then underscoreOK_from hex r SeenDigit
      else if c =? 95
           then if seen_digit saw then underscoreOK_from hex r SeenUnderscore
                else false
           else if seen_underscore saw then false
                else underscoreOK_from hex r SeenOther
  end.

Definition is_base_prefix (c : Z) : bool :=
  (lower c =? 98) || (lower c =? 111) || (lower c =? 120).

(** An underscore may only stand between two digits, or between a base
    prefix and a digit. *)
Definition underscoreOK (s : string) : bool :=
  let s :=
    match s with
    | String ch r =>
        if (byte_of ch =? 45) || (byte_of ch =? 43) then r else s
    | EmptyString => s
    end in
  match s with
  | String c0 (String c1 r) =>
      if (byte_of c0 =? 48) && is_base_prefix (byte_of c1)
      then underscoreOK_from (lower (byte_of c1) =? 120) r SeenDigit
      else underscoreOK_from false s SeenStart
  | _ => underscoreOK_from false s SeenStart
  end.

(** *** ParseUint(s, 0, 64) *)

(** The digit loop.  [inr] is a return from inside the loop, [inl] the
    state when the string is exhausted. *)
Fixpoint ParseUint_loop (base cutoff maxVal : Z) (s : string)
    (underscores : bool) (n : uint64)
  : (uint64 * bool) + (uint64 * error) :=
  match s with
  | EmptyString => inl (n, underscores)
  | String ch r =>
      let c := byte_of ch in
      if c =? 95 then ParseUint_loop base cutoff maxVal r true n
      else
        let d :=
          if is_digit c then Some (c - 48)
          else if (97 <=? lower c) && (lower c <=? 122)
               then Some (lower c - 97 + 10)
               else None in
        match d with
        | None => inr (0, ErrSyntax)
        | Some d =>
            if d >=? base then inr (0, ErrSyntax)
            else if n >=? cutoff then inr (maxVal, ErrRange)
            else
              let n := to_uint64 (n * base) in
              let n1 := to_uint64 (n + d) in
              if (n1 <? n) || (n1 >? maxVal) then inr (maxVal, ErrRange)
              else ParseUint_loop base cutoff maxVal r underscores n1
        end
  end.

(** [strconv.ParseUint(s, 0, 64)], the only way the engine calls it, as of
    Go 1.13: the base is read off the prefix ([0b], [0o], [0x], a bare
    leading [0] for octal, decimal otherwise) and underscores may separate
    digits. *)
Definition ParseUint (s : string) : uint64 * option error :=
  match s with
  | EmptyString => (0, Some ErrSyntax)
  | String c0 r0 =>
      let '(base, digits) :=
        if byte_of c0 =? 48 then
          match r0 with
          | String c1 r1 =>
              match r1 with
              | String _ _ =>
                  if lower (byte_of c1) =? 98 then (2, r1)
                  else if lower (byte_of c1) =? 111 then (8, r1)
                  else if lower (byte_of c1) =? 120 then (16, r1)
                  else (8, r0)
              | EmptyString => (8, r0)
              end
          | EmptyString => (8, r0)
          end
        else (10, s) in
      let cutoff := maxUint64 / base + 1 in
      let maxVal := to_uint64 (to_uint64 (Z.shiftl 1 64) - 1) in
      match ParseUint_loop base cutoff maxVal digits false 0 with
      | inr (v, e) => (v, Some e)
      | inl (n, underscores) =>
          if underscores && negb (underscoreOK s) then (0, Some ErrSyntax)
          else (n, None)
      end
  end.

(** *** FormatUint(v, 10) *)

Fixpoint FormatUint_digits (fuel : nat) (v : Z) (acc : string) : string :=
  match fuel with
  | O => acc
  | S f =>
      let acc' := String (ascii_of (48 + v mod 10)) acc in
      if v <? 10 then acc' else FormatUint_digits f (v / 10) acc'
  end.

(** A uint64 has at most twenty decimal digits. *)
Definition FormatUint (v : uint64) : string := FormatUint_digits 20 v "".

(** *** ParseFloat(s, 64) *)

Record scan : Type := mkScan {
  mantissa : Z;       (* the digits read, leading zeros apart *)
  nd : Z;             (* how many of them *)
  dp : Z;             (* position of the point *)
  sawdot : bool;
  sawdigits : bool;
  underscores : bool
}.

Definition scan0 : scan := mkScan 0 0 0 false false false.

(** The mantissa loop of [readFloat]; it stops at the first byte that
    cannot continue the mantissa and returns what is left.  The digits are
    all kept, so the value read is exact. *)
Fixpoint readMantissa (hex : bool) (s : string) (st : scan) : scan * string :=
  match s with
  | EmptyString => (st, s)
  | String ch r =>
      let c := byte_of ch in
      if c =? 95 then
        readMantissa hex r
          (mkScan (mantissa st) (nd st) (dp st) (sawdot st) (sawdigits st) true)
      else if c =? 46 then
        if sawdot st then (st, s)
        else readMantissa hex r
               (mkScan (mantissa st) (nd st) (nd st) true (sawdigits st)
                  (underscores st))
      else if is_digit c then
        if (c =? 48) && (nd st =? 0) then
          readMantissa hex r
            (mkScan (mantissa st) (nd st) (dp st - 1) (sawdot st) true
               (underscores st))
        else
          readMantissa hex r
            (mkScan (mantissa st * (if hex then 16 else 10) + (c - 48))
               (nd st + 1) (dp st) (sawdot st) true (underscores st))
      else if hex && (97 <=? lower c) && (lower c <=? 102) then
        readMantissa hex r
          (mkScan (mantissa st * 16 + (lower c - 97 + 10))
             (nd st + 1) (dp st) (sawdot st) true (underscores st))
      else (st, s)
  end.

Fixpoint readExponent (s : string) (e : Z) (us : bool) : Z * bool * string :=
  match s with
  | EmptyString => (e, us, s)
  | String ch r =>
      let c := byte_of ch in
      if c =? 95 then readExponent r e true
      else if is_digit c
           then readExponent r (if e <? 10000 then e * 10 + (c - 48) else e) us
           else (e, us, s)
  end.

Record literal : Type := mkLiteral {
  lit_neg : bool;
  lit_hex : bool;
  lit_mantissa : Z;
  lit_exp : Z;          (* power of ten, or of two for a hex literal *)
  lit_underscores : bool;
  lit_rest : string     (* what follows the literal *)
}.

Definition readFloat (s : string) : option literal :=
  match s with
  | EmptyString => None
  | String cs rs =>
      let '(neg, s1) :=
        if byte_of cs =? 43 then (false, rs)
        else if byte_of cs =? 45 then (true, rs)
        else (false, s) in
      let '(hex, s2) :=
        match s1 with
        | String c0 (String c1 (String c2 r)) =>
            if (byte_of c0 =? 48) && (lower (byte_of c1) =? 120)
            then (true, String c2 r) else (false, s1)
        | _ => (false, s1)
        end in
      let '(st, s3) := readMantissa hex s2 scan0 in
      if negb (sawdigits st) then None
      else
        let scale := if hex then 4 else 1 in
        let point := (if sawdot st then dp st else nd st) * scale in
        let ndMant := nd st * scale in
        let finish (point : Z) (us : bool) (rest : string) :=
          Some (mkLiteral neg hex (mantissa st)
                  (if mantissa st =? 0 then 0 else point - ndMant) us rest) in
        let expChar := if hex then 112 else 101 in
        match s3 with
        | EmptyString => if hex then None else finish point (underscores st) s3
        | String ce r4 =>
            if lower (byte_of ce) =? expChar then
              match r4 with
              | EmptyString => None
              | String cg r5 =>
                  let '(esign, s5) :=
                    if byte_of cg =? 43 then (1, r5)
                    else if byte_of cg =? 45 then (-1, r5)
                    else (1, r4) in
                  match s5 with
                  | EmptyString => None
                  | String cd _ =>
                      if negb (is_digit (byte_of cd)) then None
                      else
                        let '(e, us, s6) := readExponent s5 0 (underscores st) in
                        finish (point + e * esign) us s6
                  end
              end
            else if hex then None
            else finish point (underscores st) s3
        end
  end.

Fixpoint to_lower (s : string) : string :=
  match s with
  | EmptyString => EmptyString
  | String c r =>
      let b := byte_of c in
      String (if (65 <=? b) && (b <=? 90) then ascii_of (b + 32) else c) (to_lower r)
  end.

(** The spellings of the infinities and of NaN. *)
Definition special (s : string) : option float64.t :=
  let l := to_lower s in
  if (l =? "inf")%string || (l =? "+inf")%string
     || (l =? "infinity")%string || (l =? "+infinity")%string
  then Some (S754_infinity false)
  else if (l =? "-inf")%string || (l =? "-infinity")%string
  then Some (S754_infinity true)
  else if (l =? "nan")%string then Some S754_nan
  else None.

(** [strconv.ParseFloat(s, 64)]: decimal and hexadecimal literals, rounded
    to the nearest binary64; a literal beyond the largest finite value
    gives an infinity together with [ErrRange]. *)
Definition ParseFloat (s : string) : float64.t * option error :=
  match special s with
  | Some f => (f, None)
  | None =>
      match readFloat s with
      | None => (float64.zero, Some ErrSyntax)
      | Some l =>
          if negb (lit_rest l =? "")%string
             || (lit_underscores l && negb (underscoreOK s))
          then (float64.zero, Some ErrSyntax)
          else
            let f :=
              if lit_hex l
              then (if lit_mantissa l =? 0 then S754_zero (lit_neg l)
                    else float64.of_scaled (lit_neg l) (lit_mantissa l) (lit_exp l))
              else float64.of_decimal (lit_neg l) (lit_mantissa l) (lit_exp l) in
            if float64.is_inf f then (f, Some ErrRange) else (f, None)
      end
  end.

End strconv.

(** ** Numbers *)

Definition MaxInt64 : Z := Z.shiftl 1 63 - 1.
Definition MinInt64 : Z := Z.shiftl (-1) 63.
Definition AbsMinInt64 : Z := Z.shiftl 1 63.

Inductive NumberKind : Type :=
| Positive      (* Number is non-negative *)
| Negative      (* Number is negative *)
| MinNumber     (* Number is minimum value allowed for range *)
| MaxNumber.    (* Number is maximum value allowed for range *)

Definition NumberKind_eqb (a b : NumberKind) : bool :=
  match a, b with
  | Positive, Positive | Negative, Negative
  | MinNumber, MinNumber | MaxNumber, MaxNumber => true
  | _, _ => false
  end.

Record Number : Type := mkNumber {
  Kind : NumberKind;
  Value : uint64;
  Decimal : float64.t
}.

(** The zero value of the struct, which a named result starts from. *)
Definition Number_zero : Number := mkNumber Positive 0 float64.zero.

Definition maxNumber : Number := mkNumber MaxNumber 0 float64.zero.
Definition minNumber : Number := mkNumber MinNumber 0 float64.zero.

Definition FromInt (i : int64) : Number :=
  if i <? 0
  then mkNumber Negative (to_uint64 (to_int64 (- i))) float64.zero
  else mkNumber Positive (to_uint64 i) float64.zero.

Definition FromUint (i : uint64) : Number :=
  mkNumber Positive i float64.zero.

Definition ParseNumber (s : string) : Number * option error :=
  let n := Number_zero in
  let s := strings.TrimSpace s in
  if (s =? "max")%string then (maxNumber, None)
  else if (s =? "min")%string then (minNumber, None)
  else if (s =? "")%string then (n, Some ErrEmptyString)
  else if (s =? "+")%string || (s =? "-")%string then (n, Some ErrSignNoValue)
  else
    let '(n, s) :=
      match s with
      | String c r =>
          if byte_of c =? 43 then (n, r)
          else if byte_of c =? 45
               then (mkNumber Negative (Value n) (Decimal n), r)
               else (n, s)
      | EmptyString => (n, s)
      end in
    let parts := strings.Split s "." in
    if (List.length parts =? 1)%nat then
      let '(v, err) := strconv.ParseUint s in
      (mkNumber (Kind n) v (Decimal n), err)
    else if (2 <? List.length parts)%nat then (n, Some ErrTooManyDots)
    else
      let '(dec, err) := strconv.ParseFloat s in
      (mkNumber (Kind n) (float64.to_uint64 dec) dec, err).

Definition Number_String (n : Number) : string :=
  match Kind n with
  | Negative => "-" ++ strconv.FormatUint (Value n)
  | MinNumber => "min"
  | MaxNumber => "max"
  | Positive => strconv.FormatUint (Value n)
  end.

Definition Number_Int (n : Number) : int64 * option error :=
  match Kind n with
  | MinNumber => (MinInt64, None)
  | MaxNumber => (MaxInt64, None)
  | Negative =>
      if Value n =? AbsMinInt64 then (MinInt64, None)
      else if Value n <? AbsMinInt64 then (to_int64 (- to_int64 (Value n)), None)
      else (0, Some ErrOverflow)
  | Positive =>
      if Value n <=? MaxInt64 then (to_int64 (Value n), None)
      else (0, Some ErrOverflow)
  end.

Definition Number_add (n : Number) (i : uint64) : Number :=
  match Kind n with
  | MinNumber => n
  | MaxNumber => n
  | Negative =>
      if Value n <=? i
      then mkNumber Positive (to_uint64 (i - Value n)) (Decimal n)
      else mkNumber Negative (to_uint64 (Value n - i)) (Decimal n)
  | Positive => mkNumber Positive (to_uint64 (Value n + i)) (Decimal n)
  end.

Definition Number_Less (n m : Number) : bool :=
  if NumberKind_eqb (Kind m) MinNumber then false
  else if NumberKind_eqb (Kind n) MinNumber then true
  else if NumberKind_eqb (Kind n) MaxNumber then false
  else if NumberKind_eqb (Kind m) MaxNumber then true
  else if NumberKind_eqb (Kind n) Negative && negb (NumberKind_eqb (Kind m) Negative)
  then true
  else if negb (NumberKind_eqb (Kind n) Negative) && NumberKind_eqb (Kind m) Negative
  then false
  else if NumberKind_eqb (Kind n) Negative then Value n >? Value m
  else Value n <? Value m.

(** [n == m] on the struct: field by field, the float with Go's [==]. *)
Definition Number_Equal (n m : Number) : bool :=
  NumberKind_eqb (Kind n) (Kind m)
  && (Value n =? Value m)
  && float64.eqb (Decimal n) (Decimal m).

(** ** Ranges *)

Record YRange : Type := mkYRange {
  Min : Number;
  Max : Number
}.

Definition YRange_Valid (r : YRange) : bool :=
  negb (Number_Less (Max r) (Min r)).

Definition YangRange : Type := list YRange.

(** [sort.Interface] on a YangRange: the order of [r[i]] and [r[j]]. *)
Definition YangRange_Less (ri rj : YRange) : bool :=
  if Number_Less (Min ri) (Min rj) then true
  else if Number_Less (Min rj) (Min ri) then false
  else Number_Less (Max ri) (Max rj).

(** [sort.Sort(r)] puts the slice in ascending order of [Less]; it is not
    stable.  The model is the insertion sort that the library runs on a
    slice of at most twelve elements: each element in turn is swapped
    leftwards while it is less than its left neighbour.  [rpre] is the part
    already sorted, last element first.  On a longer slice the library sorts
    by another method, and the slice it leaves can differ from this one in
    the order of intervals neither of which is less than the other (same
    kind and magnitude of both bounds, different Decimal components), and in
    nothing else. *)
Fixpoint sort_insert (x : YRange) (rpre : YangRange) : YangRange :=
  match rpre with
  | [] => [x]
  | y :: rp => if YangRange_Less x y then y :: sort_insert x rp else x :: y :: rp
  end.

Definition sort_Sort (r : YangRange) : YangRange :=
  rev (fold_left (fun rpre x => sort_insert x rpre) r []).

Fixpoint Validate_loop (p : YRange) (rest : YangRange) : option error :=
  match rest with
  | [] => None
  | n :: rest' =>
      if Number_Less (Min n) (Max p) then Some ErrOverlapping
      else Validate_loop p rest'
  end.

(** [r.Validate()].  The receiver is sorted in place before anything is
    checked, so the call returns the contents of the slice after it next to
    the error. *)
Definition Validate (r : YangRange) : YangRange * option error :=
  let r := sort_Sort r in
  match r with
  | [] => (r, None)
  | r0 :: rest =>
      if negb (YRange_Valid r0) then (r, Some ErrInvalidNumber)
      else
        let p := r0 in
        (r, Validate_loop p rest)
  end.

(** The loop of [coalesce]: [cur] is [cr[i]], the intervals before it are
    finished. *)
Fixpoint coalesce_loop (cur : YRange) (rest : YangRange) : YangRange :=
  match rest with
  | [] => [cur]
  | r1 :: rest' =>
      if Number_Less (Number_add (Max cur) 1) (Min r1)
      then cur :: coalesce_loop r1 rest'
      else if Number_Less (Max cur) (Max r1)
           then coalesce_loop (mkYRange (Min cur) (Max r1)) rest'
           else coalesce_loop cur rest'
  end.

Definition coalesce (r : YangRange) : YangRange :=
  match r with
  | [] => r
  | [_] => r
  | r0 :: rest => coalesce_loop r0 rest
  end.

(** One member of a range expression, [min] or [min..max]. *)
Definition ParseRanges_member (s : string) : YRange * option error :=
  let none := mkYRange Number_zero Number_zero in
  let parts := strings.Split s ".." in
  let '(min, err) := ParseNumber (hd "" parts) in
  match err with
  | Some e => (none, Some e)
  | None =>
      let '(max, err) :=
        match parts with
        | [_] => (min, None)
        | [_; p1] => ParseNumber p1
        | _ => (Number_zero, Some (ErrTooManyDotDots s))
        end in
      match err with
      | Some e => (none, Some e)
      | None =>
          if Number_Less max min
          then (none, Some (ErrLessThan (Number_String max) (Number_String min)))
          else (mkYRange min max, None)
      end
  end.

Fixpoint ParseRanges_members (parts : list string) : YangRange * option error :=
  match parts with
  | [] => ([], None)
  | s :: rest =>
      match ParseRanges_member s with
      | (_, Some e) => ([], Some e)
      | (r, None) =>
          match ParseRanges_members rest with
          | (_, Some e) => ([], Some e)
          | (rs, None) => (r :: rs, None)
          end
      end
  end.

Definition ParseRanges (s : string) : YangRange * option error :=
  let parts := strings.Split s "|" in
  match ParseRanges_members parts with
  | (_, Some e) => ([], Some e)
  | (r, None) =>
      match Validate r with
      | (_, Some e) => ([], Some e)
      | (r, None) => (coalesce r, None)
      end
  end.

(** ** Containment

    The goroutine of [Contains] only feeds the intervals of [r] in order
    through a channel; [rr] is the interval last received and [rest] what the
    channel has still to deliver. *)

(** [for rr.Max.Less(ss.Min) { rr, ok = <-rc; if !ok { return false } }] *)
Fixpoint Contains_advance (rest : YangRange) (rr : YRange) (ssMin : Number)
  : option (YRange * YangRange) :=
  if Number_Less (Max rr) ssMin then
    match rest with
    | [] => None
    | rr' :: rest' => Contains_advance rest' rr' ssMin
    end
  else Some (rr, rest).

(** The position in [r] at which a candidate interval is examined. *)
Definition Contains_locate (ss : YRange) (rr : YRange) (rest : YangRange)
  : option (YRange * YangRange) :=
  if negb (NumberKind_eqb (Kind (Min ss)) MinNumber)
  then Contains_advance rest rr (Min ss)
  else Some (rr, rest).

Fixpoint Contains_loop (s : YangRange) (rr : YRange) (rest : YangRange) : bool :=
  match s with
  | [] => true
  | ss :: s' =>
      match Contains_locate ss rr rest with
      | None => false
      | Some (rr, rest) =>
          if NumberKind_eqb (Kind (Max ss)) MaxNumber
             || NumberKind_eqb (Kind (Min ss)) MinNumber
          then Contains_loop s' rr rest
          else if Number_Less (Min ss) (Min rr) || Number_Less (Max rr) (Max ss)
               then false
               else Contains_loop s' rr rest
      end
  end.

Definition Contains (r s : YangRange) : bool :=
  match s, r with
  | [], _ => true
  | _, [] => true
  | _, rr :: rest => Contains_loop s rr rest
  end.

(** ** Numbers the engine can build *)

(** A Number is constructible when it comes out of [FromInt], of [FromUint]
    or of a successful [ParseNumber]. *)
Inductive constructible : Number -> Prop :=
| constructible_FromInt (i : int64) :
    MinInt64 <= i <= MaxInt64 -> constructible (FromInt i)
| constructible_FromUint (u : uint64) :
    0 <= u <= maxUint64 -> constructible (FromUint u)
| constructible_ParseNumber (s : string) (n : Number) :
    ParseNumber s = (n, None) -> constructible n.

(** A candidate interval with an unbounded edge, as [Contains] tests it. *)
Definition unbounded_edge (c : YRange) : bool :=
  NumberKind_eqb (Kind (Max c)) MaxNumber
  || NumberKind_eqb (Kind (Min c)) MinNumber.

(** Literal intervals, for examples. *)
Definition range_of (lo hi : Z) : YRange := mkYRange (FromInt lo) (FromInt hi).

(** What "exactly one of three" means. *)
Definition exactly_one (x y z : bool) : Prop :=
  (x = true /\ y = false /\ z = false)
  \/ (x = false /\ y = true /\ z = false)
  \/ (x = false /\ y = false /\ z = true).

(** [Number_Less] is the lexicographic order on the class of a Number (min
    sentinel, Negative, Positive, max sentinel) and then on its signed
    magnitude; the Decimal component plays no part in it. *)
Definition Number_class (n : Number) : Z :=
  match Kind n with
  | MinNumber => 0
  | Negative => 1
  | Positive => 2
  | MaxNumber => 3
  end.

Definition Number_rank (n : Number) : Z :=
  match Kind n with
  | Negative => - Value n
  | Positive => Value n
  | _ => 0
  end.

(** Ascending order of a set: no interval is less than one before it. *)
Definition ascending : YangRange -> Prop :=
  StronglySorted (fun a b => YangRange_Less b a = false).

Definition descending : YangRange -> Prop :=
  StronglySorted (fun a b => YangRange_Less a b = false).

(** ** Strings *)

(** A string that does not start with a white-space rune. *)
Definition clean (p1 : Z -> bool) (p2 : Z -> Z -> bool) (p3 : Z -> Z -> Z -> bool)
    (s : string) : bool :=
  match s with
  | EmptyString => true
  | String c1 r1 =>
      negb (p1 (byte_of c1))
      && match r1 with
         | EmptyString => true
         | String c2 r2 =>
             negb (p2 (byte_of c1) (byte_of c2))
             && match r2 with
                | EmptyString => true
                | String c3 _ => negb (p3 (byte_of c1) (byte_of c2) (byte_of c3))
                end
         end
  end.

(** A string made of white-space runes only. *)
Fixpoint white_space_only (s : string) : bool :=
  match s with
  | EmptyString => true
  | String c1 r1 =>
      if strings.space1 (byte_of c1) then white_space_only r1
      else
        match r1 with
        | EmptyString => false
        | String c2 r2 =>
            if strings.space2 (byte_of c1) (byte_of c2) then white_space_only r2
            else
              match r2 with
              | EmptyString => false
              | String c3 r3 =>
                  strings.space3 (byte_of c1) (byte_of c2) (byte_of c3)
                  && white_space_only r3
              end
        end
  end.

(** A string of decimal digits. *)
Fixpoint digits_only (s : string) : bool :=
  match s with
  | EmptyString => true
  | String c r => is_digit (byte_of c) && digits_only r
  end.

(** An ASCII byte other than white space: no white-space rune starts or
    ends with it. *)
Definition plain (c : ascii) : Prop :=
  byte_of c < 128 /\ strings.space1 (byte_of c) = false.

(** A string without a decimal point. *)
Fixpoint no_dot (s : string) : bool :=
  match s with
  | EmptyString => true
  | String c r => negb (c =? ".")%char && no_dot r
  end.

(** The induction principle that follows the cases of [trim_runes]. *)
Functional Scheme trim_runes_ind := Induction for strings.trim_runes Sort Prop.

(** ** Rendering, equality and the default ranges *)

(** [strings.Join(elems, sep)]. *)
Fixpoint strings_Join (elems : list string) (sep : string) : string :=
  match elems with
  | [] => ""
  | e :: rest =>
      match rest with
      | [] => e
      | _ :: _ => (e ++ sep ++ strings_Join rest sep)%string
      end
  end.

Definition mustParseRanges (s : string) : YangRange + error :=
  match ParseRanges s with
  | (r, None) => inl r
  | (_, Some e) => inr e          (* panic(err) *)
  end.

(** These are the default ranges defined by the YANG standard. *)
Definition Int8Range := mustParseRanges "-128..127".
Definition Int16Range := mustParseRanges "-32768..32767".
Definition Int32Range := mustParseRanges "-2147483648..2147483647".
Definition Int64Range :=
  mustParseRanges "-9223372036854775808..9223372036854775807".

Definition Uint8Range := mustParseRanges "0..255".
Definition Uint16Range := mustParseRanges "0..65535".
Definition Uint32Range := mustParseRanges "0..4294967295".
Definition Uint64Range := mustParseRanges "0..18446744073709551615".

Definition Decimal64Range := mustParseRanges "min..max".

Definition YRange_String (r : YRange) : string :=
  if Number_Equal (Min r) (Max r) then Number_String (Min r)
  else (Number_String (Min r) ++ ".." ++ Number_String (Max r))%string.

Definition YangRange_String (r : YangRange) : string :=
  strings_Join (map YRange_String r) "|".

(** [a == b] on the struct YRange. *)
Definition YRange_eqb (a b : YRange) : bool :=
  Number_Equal (Min a) (Min b) && Number_Equal (Max a) (Max b).

(** The loop of [Equal]; it runs on two slices of one length. *)
Fixpoint YangRange_Equal_loop (r q : YangRange) : bool :=
  match r with
  | [] => true
  | a :: r' =>
      match q with
      | b :: q' =>
          if negb (YRange_eqb a b) then false else YangRange_Equal_loop r' q'
      | [] => false               (* not reached: the lengths are equal *)
      end
  end.

Definition YangRange_Equal (r q : YangRange) : bool :=
  if negb (List.length r =? List.length q)%nat then false
  else YangRange_Equal_loop r q.

(** ** Notions used in the statements *)

(** A Number as the constructors build it when no fraction is read: the
    magnitude fits in 64 bits, there is no Decimal component, and a sentinel
    carries no magnitude. *)
Definition canonical (n : Number) : Prop :=
  0 <= Value n <= maxUint64
  /\ Decimal n = float64.zero
  /\ (Kind n = MinNumber \/ Kind n = MaxNumber -> Value n = 0).

(** [x] lies in the interval [r]. *)
Definition in_range (x : Number) (r : YRange) : Prop :=
  Number_Less x (Min r) = false /\ Number_Less (Max r) x = false.

Definition in_set (x : Number) (l : YangRange) : Prop :=
  Exists (in_range x) l.

(** The interval [ss] lies inside the interval [rr]. *)
Definition within (ss rr : YRange) : Prop :=
  Number_Less (Min ss) (Min rr) = false /\ Number_Less (Max rr) (Max ss) = false.

(** A relation that holds between every two neighbours of a list. *)
Fixpoint neighbours (R : YRange -> YRange -> Prop) (l : YangRange) : Prop :=
  match l with
  | [] => True
  | a :: l' =>
      match l' with
      | [] => True
      | b :: _ => R a b /\ neighbours R l'
      end
  end.

(** [b] starts more than one past the end of [a], as [coalesce] tests it. *)
Definition gap (a b : YRange) : Prop :=
  Number_Less (Number_add (Max a) 1) (Min b) = true.

(** [b] starts after the end of [a]. *)
Definition apart (a b : YRange) : Prop :=
  Number_Less (Max a) (Min b) = true.

(** A list of valid intervals each of which starts after the end of the one
    before. *)
Definition disjoint (l : YangRange) : Prop :=
  Forall (fun a => YRange_Valid a = true) l /\ neighbours apart l.

(** A set in the form [ParseRanges] gives it: not empty, bounds without
    fraction, intervals valid, each starting after the end of the one before
    and more than one past it. *)
Definition normal (r : YangRange) : Prop :=
  r <> []
  /\ Forall (fun a => canonical (Min a) /\ canonical (Max a)) r
  /\ disjoint r
  /\ neighbours gap r.

(** A Number that is not a negative zero. *)
Definition signed_magnitude (n : Number) : Prop :=
  0 <= Value n /\ ~ (Kind n = Negative /\ Value n = 0).

(** A Number to which one can be added without wrapping round, and which is
    not a negative zero. *)
Definition incrementable (n : Number) : Prop :=
  0 <= Value n <= maxUint64
  /\ ~ (Kind n = Negative /\ Value n = 0)
  /\ ~ (Kind n = Positive /\ Value n = maxUint64).

(** A Number, and an interval, with the Decimal components set to zero. *)
Definition without_fraction (n : Number) : Number :=
  mkNumber (Kind n) (Value n) float64.zero.

Definition YRange_without_fraction (a : YRange) : YRange :=
  mkYRange (without_fraction (Min a)) (without_fraction (Max a)).

(** Order of the lows alone. *)
Definition sorted_by_low : YangRange -> Prop :=
  StronglySorted (fun a b => Number_Less (Min b) (Min a) = false).

(** A string in which the byte [c] does not occur. *)
Fixpoint lacks (c : ascii) (s : string) : bool :=
  match s with
  | EmptyString => true
  | String x r => negb (x =? c)%char && lacks c r
  end.

(** * Properties *)

(** ** Containment *)

Lemma Contains_advance_located :
  forall rest rr m rr' rest',
    Contains_advance rest rr m = Some (rr', rest') ->
    Number_Less (Max rr') m = false /\ In rr' (rr :: rest).
Proof.
  induction rest as [|r1 rest IH]; intros rr m rr' rest' H; simpl in H.
  - destruct (Number_Less (Max rr) m) eqn:E; [discriminate|].
    injection H as <- <-. split; [exact E | now left].
  - destruct (Number_Less (Max rr) m) eqn:E.
    + destruct (IH _ _ _ _ H) as [H1 H2]. split; [exact H1 | now right].
    + injection H as <- <-. split; [exact E | now left].
Qed.

Lemma Contains_advance_exhausted :
  forall rest rr m,
    Contains_advance rest rr m = None <->
    Forall (fun r => Number_Less (Max r) m = true) (rr :: rest).
Proof.
  induction rest as [|r1 rest IH]; intros rr m; simpl.
  - destruct (Number_Less (Max rr) m) eqn:E; split; intro H.
    + repeat constructor; exact E.
    + reflexivity.
    + discriminate.
    + inversion H; subst; congruence.
  - destruct (Number_Less (Max rr) m) eqn:E; split; intro H.
    + constructor; [exact E | now apply IH].
    + inversion H; subst. now apply IH.
    + discriminate.
    + inversion H; subst; congruence.
Qed.

(** C1: a candidate interval whose high is the max sentinel or whose low is
    the min sentinel is satisfied as soon as a position for it has been
    located in the base (after the advance past the base intervals whose
    high is less than its low, made when its low is not the min sentinel);
    the edges of the base interval found are not looked at.  A set of one
    such interval is contained exactly when its low is the min sentinel or
    some base interval has a high not less than its low.  So the bounded
    base [0..255] contains the candidate [10..max], while it does not
    contain [10..256]. *)
Theorem Contains_unbounded_edge_accepted :
  (forall c cs rr rest,
      unbounded_edge c = true ->
      Contains_loop (c :: cs) rr rest =
        match Contains_locate c rr rest with
        | None => false
        | Some (rr', rest') => Contains_loop cs rr' rest'
        end)
  /\ (forall c rr rest,
         NumberKind_eqb (Kind (Min c)) MinNumber = false ->
         Contains_locate c rr rest = Contains_advance rest rr (Min c))
  /\ (forall c rr rest,
         unbounded_edge c = true ->
         (Contains (rr :: rest) [c] = true <->
          NumberKind_eqb (Kind (Min c)) MinNumber = true
          \/ Exists (fun r => Number_Less (Max r) (Min c) = false) (rr :: rest)))
  /\ ParseRanges "0..255" = ([range_of 0 255], None)
  /\ ParseRanges "10..max" = ([mkYRange (FromInt 10) maxNumber], None)
  /\ Contains [range_of 0 255] [mkYRange (FromInt 10) maxNumber] = true
  /\ Contains [range_of 0 255] [range_of 10 256] = false.
Proof.
  split; [|split; [|split; [|repeat split; vm_compute; reflexivity]]].
  - intros c cs rr rest Hc. simpl.
    destruct (Contains_locate c rr rest) as [[rr' rest']|]; [|reflexivity].
    unfold unbounded_edge in Hc. rewrite Hc. reflexivity.
  - intros c rr rest Hc. unfold Contains_locate. rewrite Hc. reflexivity.
  - intros c rr rest Hc. unfold Contains. cbn [Contains_loop].
    unfold unbounded_edge in Hc. unfold Contains_locate.
    destruct (NumberKind_eqb (Kind (Min c)) MinNumber) eqn:K; cbn [negb].
    + rewrite Hc. split; [now left | reflexivity].
    + destruct (Contains_advance rest rr (Min c)) as [[rr' rest']|] eqn:A.
      * rewrite Hc. split; [|reflexivity]. intros _. right.
        destruct (Contains_advance_located _ _ _ _ _ A) as [L I].
        apply Exists_exists. exists rr'. split; assumption.
      * split; [discriminate|]. intros [F|E]; [discriminate|].
        apply Contains_advance_exhausted in A.
        apply Exists_exists in E. destruct E as (r & I & L).
        rewrite Forall_forall in A. specialize (A r I). congruence.
Qed.

Lemma Contains_unbounded_edge_accepted_witness :
  unbounded_edge (mkYRange (FromInt 10) maxNumber) = true
  /\ Contains_loop [mkYRange (FromInt 10) maxNumber] (range_of 0 255) [] = true.
Proof.
  split; [reflexivity|].
  rewrite (proj1 Contains_unbounded_edge_accepted
             (mkYRange (FromInt 10) maxNumber) [] (range_of 0 255) [] eq_refl).
  reflexivity.
Defined.

(** C8: whatever the set S, [Contains S empty] and [Contains empty S] are
    both true. *)
Theorem Contains_empty :
  forall S : YangRange, Contains S [] = true /\ Contains [] S = true.
Proof.
  intros S. split.
  - reflexivity.
  - destruct S; reflexivity.
Qed.

(** ** Validation *)

Lemma Validate_loop_passes :
  forall p rest,
    Validate_loop p rest = None <->
    Forall (fun n => Number_Less (Min n) (Max p) = false) rest.
Proof.
  intros p rest. induction rest as [|n rest IH]; simpl.
  - split; [constructor | reflexivity].
  - destruct (Number_Less (Min n) (Max p)) eqn:E; split; intro H.
    + discriminate.
    + inversion H; subst; congruence.
    + constructor; [exact E | now apply IH].
    + inversion H; subst. now apply IH.
Qed.

(** What [Validate] accepts: a set whose first interval in sorted order is
    valid and ends no later than any other interval starts. *)
Lemma Validate_accepts :
  forall r,
    snd (Validate r) = None <->
    match sort_Sort r with
    | [] => True
    | r0 :: rest =>
        YRange_Valid r0 = true
        /\ Forall (fun n => Number_Less (Min n) (Max r0) = false) rest
    end.
Proof.
  intros r. unfold Validate. destruct (sort_Sort r) as [|r0 rest]; simpl.
  - tauto.
  - destruct (YRange_Valid r0); simpl.
    + rewrite Validate_loop_passes. tauto.
    + split; [discriminate | intros [H _]; discriminate].
Qed.

(** C2: [Validate] compares every later interval with the first one only, so
    it accepts the set 1..5|10..20|15..30, whose last two members overlap,
    and [ParseRanges] returns it coalesced to 1..5|10..30; the overlap in
    1..10|5..15, which involves the first interval, is rejected. *)
Theorem Validate_misses_later_overlap :
  let r := [range_of 1 5; range_of 10 20; range_of 15 30] in
  Number_Less (Min (range_of 15 30)) (Max (range_of 10 20)) = true
  /\ Validate r = (r, None)
  /\ ParseRanges "1..5|10..20|15..30" = ([range_of 1 5; range_of 10 30], None)
  /\ ParseRanges "1..10|5..15" = ([], Some ErrOverlapping).
Proof.
  repeat split; vm_compute; reflexivity.
Qed.

(** ** Conversion to a signed integer *)

(** C4, as the code has it: [Int] gives the signed minimum for the min
    sentinel and the signed maximum for the max sentinel, both without
    error, and it fails, with the overflow error, exactly when the value is
    Positive with a magnitude above [MaxInt64] or Negative with a magnitude
    above [AbsMinInt64]. *)
Theorem Number_Int_failure :
  Number_Int minNumber = (MinInt64, None)
  /\ Number_Int maxNumber = (MaxInt64, None)
  /\ (forall n : Number,
         (snd (Number_Int n) <> None <->
          (Kind n = Positive /\ MaxInt64 < Value n)
          \/ (Kind n = Negative /\ AbsMinInt64 < Value n))
         /\ (snd (Number_Int n) = None \/ snd (Number_Int n) = Some ErrOverflow)).
Proof.
  split; [reflexivity|]. split; [reflexivity|].
  intros [k v d]. unfold Number_Int; simpl.
  destruct k; simpl.
  - destruct (Z.leb_spec v MaxInt64); simpl; split.
    + split; [congruence | intros [[_ H1]|[H1 _]]; [lia | discriminate]].
    + now left.
    + split; [intros _; left; split; [reflexivity | lia] | discriminate].
    + now right.
  - destruct (Z.eqb_spec v AbsMinInt64); simpl.
    + split; [|now left].
      split; [congruence | intros [[H1 _]|[_ H1]]; [discriminate | lia]].
    + destruct (Z.ltb_spec v AbsMinInt64); simpl; split.
      * split; [congruence | intros [[H1 _]|[_ H1]]; [discriminate | lia]].
      * now left.
      * split; [intros _; right; split; [reflexivity | lia] | discriminate].
      * now right.
  - split; [|now left].
    split; [congruence | intros [[H1 _]|[H1 _]]; discriminate].
  - split; [|now left].
    split; [congruence | intros [[H1 _]|[H1 _]]; discriminate].
Qed.

Lemma Number_Int_failure_witness :
  snd (Number_Int (mkNumber Negative (AbsMinInt64 + 1) float64.zero)) <> None.
Proof.
  apply (proj1 (proj2 (proj2 Number_Int_failure)
                  (mkNumber Negative (AbsMinInt64 + 1) float64.zero))).
  right. split; [reflexivity | vm_compute; reflexivity].
Defined.

(** C4 as stated does not hold: the literal -9223372036854775809 parses to a
    Negative Number, and [Int] fails on it. *)
Lemma Number_Int_fails_on_negative :
  ~ (forall n : Number,
        constructible n ->
        (snd (Number_Int n) <> None <-> Kind n = Positive /\ MaxInt64 < Value n)).
Proof.
  intros H.
  assert (C : constructible (mkNumber Negative 9223372036854775809 float64.zero)).
  { apply (constructible_ParseNumber "-9223372036854775809"). vm_compute. reflexivity. }
  destruct (H _ C) as [H1 _].
  assert (F : snd (Number_Int (mkNumber Negative 9223372036854775809 float64.zero))
              <> None) by (vm_compute; discriminate).
  destruct (H1 F) as [K _]. discriminate K.
Qed.

(** ** Coalescing *)

Lemma Number_Less_irrefl : forall n, Number_Less n n = false.
Proof.
  intros [k v d]. unfold Number_Less; destruct k; simpl;
    [apply Z.ltb_irrefl | | reflexivity | reflexivity].
  unfold Z.gtb. now rewrite Z.compare_refl.
Qed.

(** The output of the loop starts with the low of the interval it was
    started on, and running the loop again on it changes nothing. *)
Lemma coalesce_loop_fixed :
  forall rest cur,
    exists c l,
      coalesce_loop cur rest = c :: l
      /\ Min c = Min cur
      /\ coalesce_loop c l = c :: l.
Proof.
  induction rest as [|r1 rest IH]; intros cur; simpl.
  - exists cur, []. repeat split.
  - destruct (Number_Less (Number_add (Max cur) 1) (Min r1)) eqn:Gap.
    + destruct (IH r1) as (c & l & E & M & F).
      exists cur, (c :: l). rewrite E. repeat split.
      simpl. rewrite M, Gap, F. reflexivity.
    + destruct (Number_Less (Max cur) (Max r1)).
      * destruct (IH (mkYRange (Min cur) (Max r1))) as (c & l & E & M & F).
        exists c, l. repeat split; assumption.
      * apply IH.
Qed.

Lemma coalesce_idempotent : forall S, coalesce (coalesce S) = coalesce S.
Proof.
  intros [|r0 [|r1 rest]]; try reflexivity.
  change (coalesce (r0 :: r1 :: rest)) with (coalesce_loop r0 (r1 :: rest)).
  destruct (coalesce_loop_fixed (r1 :: rest) r0) as (c & l & E & _ & F).
  rewrite E. destruct l as [|c1 l]; [reflexivity | exact F].
Qed.

(** C6: when [Validate] succeeds on S, coalescing a second time changes
    nothing, whether S is taken as it was passed or as [Validate] left it
    (sorted). *)
Theorem coalesce_idempotent_validated :
  forall S S' : YangRange,
    Validate S = (S', None) ->
    coalesce (coalesce S') = coalesce S'
    /\ coalesce (coalesce S) = coalesce S.
Proof.
  intros S S' _. split; apply coalesce_idempotent.
Qed.

Lemma coalesce_idempotent_validated_witness :
  Validate [range_of 6 10; range_of 1 5] = ([range_of 1 5; range_of 6 10], None)
  /\ coalesce (coalesce [range_of 1 5; range_of 6 10])
     = coalesce [range_of 1 5; range_of 6 10].
Proof.
  split; [vm_compute; reflexivity|].
  apply (coalesce_idempotent_validated [range_of 6 10; range_of 1 5]).
  vm_compute; reflexivity.
Defined.

(** C7: "1..5|6..10" parses to the single interval 1..10, an interval whose
    high plus one is the low of the next one being merged with it, and
    "1..5|7..10" parses to the two intervals 1..5 and 7..10. *)
Theorem ParseRanges_coalesce_examples :
  ParseRanges "1..5|6..10" = ([range_of 1 10], None)
  /\ ParseRanges "1..5|7..10" = ([range_of 1 5; range_of 7 10], None)
  /\ (forall a b : YRange,
         Number_add (Max a) 1 = Min b ->
         Number_Less (Max a) (Max b) = true ->
         coalesce [a; b] = [mkYRange (Min a) (Max b)]).
Proof.
  split; [vm_compute; reflexivity|]. split; [vm_compute; reflexivity|].
  intros a b Hadj Hlt. simpl.
  rewrite Hadj, Number_Less_irrefl, Hlt. reflexivity.
Qed.

Lemma ParseRanges_coalesce_examples_witness :
  coalesce [range_of 1 5; range_of 6 10] = [range_of 1 10].
Proof.
  apply (proj2 (proj2 ParseRanges_coalesce_examples)
           (range_of 1 5) (range_of 6 10)); vm_compute; reflexivity.
Defined.

(** ** The order on Numbers *)

Lemma Number_Less_iff :
  forall n m,
    Number_Less n m = true <->
    Number_class n < Number_class m
    \/ (Number_class n = Number_class m /\ Number_rank n < Number_rank m).
Proof.
  intros [kn vn dn] [km vm dm].
  unfold Number_Less, Number_class, Number_rank; simpl.
  destruct kn, km; simpl;
    rewrite ?Z.ltb_lt, ?Z.gtb_lt; split; intro H; try lia; try discriminate;
    try reflexivity.
Qed.

Lemma Number_Less_false_iff :
  forall n m,
    Number_Less n m = false <->
    ~ (Number_class n < Number_class m
       \/ (Number_class n = Number_class m /\ Number_rank n < Number_rank m)).
Proof.
  intros n m. rewrite <- Number_Less_iff.
  destruct (Number_Less n m); split; congruence.
Qed.

Lemma YangRange_Less_iff :
  forall a b,
    YangRange_Less a b = true <->
    Number_Less (Min a) (Min b) = true
    \/ (Number_Less (Min b) (Min a) = false /\ Number_Less (Max a) (Max b) = true).
Proof.
  intros a b. unfold YangRange_Less.
  destruct (Number_Less (Min a) (Min b)) eqn:E1.
  - split; auto.
  - destruct (Number_Less (Min b) (Min a)) eqn:E2.
    + split; [discriminate | intros [H|[H _]]; discriminate].
    + split; [auto | intros [H|[_ H]]; [discriminate | exact H]].
Qed.

Ltac order_facts :=
  repeat match goal with
    | H : YangRange_Less _ _ = true |- _ => apply YangRange_Less_iff in H
    | H : Number_Less _ _ = true |- _ => apply Number_Less_iff in H
    | H : Number_Less _ _ = false |- _ => apply Number_Less_false_iff in H
    end.

Lemma YangRange_Less_asym :
  forall a b, YangRange_Less a b = true -> YangRange_Less b a = false.
Proof.
  intros a b H. destruct (YangRange_Less b a) eqn:E; [|reflexivity].
  exfalso. order_facts.
  destruct H as [H|[H1 H2]], E as [E|[E1 E2]]; order_facts; lia.
Qed.

Lemma YangRange_Less_negtrans :
  forall a b c,
    YangRange_Less a c = true ->
    YangRange_Less a b = false ->
    YangRange_Less b c = true.
Proof.
  intros a b c Hac Hab.
  apply YangRange_Less_iff in Hac. apply YangRange_Less_iff.
  unfold YangRange_Less in Hab.
  destruct (Number_Less (Min a) (Min b)) eqn:E1; [discriminate|].
  destruct (Number_Less (Min b) (Min a)) eqn:E2.
  - left. destruct Hac as [H|[H1 H2]]; order_facts;
      apply Number_Less_iff; lia.
  - destruct (Number_Less (Min b) (Min c)) eqn:E3; [now left|].
    right. destruct Hac as [H|[H1 H2]]; order_facts.
    + exfalso; lia.
    + split; [apply Number_Less_false_iff | apply Number_Less_iff]; lia.
Qed.

(** ** Sorting *)

Lemma sort_insert_perm :
  forall x rp, Permutation (x :: rp) (sort_insert x rp).
Proof.
  intros x rp. induction rp as [|y rp IH]; simpl.
  - apply Permutation_refl.
  - destruct (YangRange_Less x y).
    + eapply perm_trans; [apply perm_swap|]. now apply perm_skip.
    + apply Permutation_refl.
Qed.

Lemma sort_fold_perm :
  forall r acc,
    Permutation (r ++ acc) (fold_left (fun rpre x => sort_insert x rpre) r acc).
Proof.
  induction r as [|x r IH]; intros acc; simpl.
  - apply Permutation_refl.
  - eapply perm_trans; [|apply IH].
    eapply perm_trans; [apply Permutation_middle|].
    apply Permutation_app_head. apply sort_insert_perm.
Qed.

Lemma sort_Sort_perm : forall r, Permutation r (sort_Sort r).
Proof.
  intros r. unfold sort_Sort.
  eapply perm_trans; [|apply Permutation_rev].
  rewrite <- (app_nil_r r) at 1. apply sort_fold_perm.
Qed.

Lemma sort_insert_descending :
  forall x rp, descending rp -> descending (sort_insert x rp).
Proof.
  intros x rp. induction rp as [|y rp IH]; intros D; simpl.
  - repeat constructor.
  - inversion D as [|? ? D' F]; subst.
    destruct (YangRange_Less x y) eqn:E.
    + constructor; [now apply IH|].
      eapply Permutation_Forall; [apply sort_insert_perm|].
      constructor; [now apply YangRange_Less_asym | exact F].
    + constructor; [exact D|].
      constructor; [exact E|].
      rewrite Forall_forall in *. intros z Hz.
      destruct (YangRange_Less x z) eqn:Ez; [|reflexivity].
      pose proof (YangRange_Less_negtrans x y z Ez E) as N.
      specialize (F z Hz). congruence.
Qed.

Lemma sort_fold_descending :
  forall r acc,
    descending acc ->
    descending (fold_left (fun rpre x => sort_insert x rpre) r acc).
Proof.
  induction r as [|x r IH]; intros acc D; simpl.
  - exact D.
  - apply IH. now apply sort_insert_descending.
Qed.

Lemma StronglySorted_snoc :
  forall (A : Type) (R : A -> A -> Prop) (l : list A) (a : A),
    StronglySorted R l ->
    Forall (fun b => R b a) l ->
    StronglySorted R (l ++ [a]).
Proof.
  intros A R l a S F. induction S as [|b l S IH Fb]; simpl.
  - repeat constructor.
  - inversion F; subst. constructor; [now apply IH|].
    apply Forall_app. split; [exact Fb | now repeat constructor].
Qed.

Lemma descending_rev : forall l, descending l -> ascending (rev l).
Proof.
  induction l as [|a l IH]; intros D; simpl.
  - constructor.
  - inversion D as [|? ? D' F]; subst.
    apply StronglySorted_snoc; [now apply IH|].
    now apply Forall_rev.
Qed.

Lemma sort_Sort_ascending : forall r, ascending (sort_Sort r).
Proof.
  intros r. apply descending_rev, sort_fold_descending. constructor.
Qed.

(** A set already in ascending order is left as it is. *)
Lemma sort_insert_last :
  forall x rp,
    Forall (fun y => YangRange_Less x y = false) rp ->
    sort_insert x rp = x :: rp.
Proof.
  intros x [|y rp] F; simpl; [reflexivity|].
  inversion F as [|? ? E _]; subst. now rewrite E.
Qed.

Lemma sort_fold_ascending :
  forall r acc,
    ascending r ->
    Forall (fun x => Forall (fun y => YangRange_Less x y = false) acc) r ->
    fold_left (fun rpre x => sort_insert x rpre) r acc = (rev r ++ acc)%list.
Proof.
  induction r as [|x r IH]; intros acc A F; simpl; [reflexivity|].
  inversion A as [|? ? A' Fx]; subst. inversion F as [|? ? Fa F']; subst.
  rewrite (sort_insert_last x acc Fa), <- app_assoc. simpl.
  apply IH; [exact A'|].
  rewrite Forall_forall in *. intros z Hz.
  constructor; [now apply Fx | now apply F'].
Qed.

Lemma sort_Sort_sorted : forall r, ascending r -> sort_Sort r = r.
Proof.
  intros r A. unfold sort_Sort.
  rewrite (sort_fold_ascending r [] A), app_nil_r; [apply rev_involutive|].
  rewrite Forall_forall. intros; constructor.
Qed.

Lemma ParseRanges_failure_nil :
  forall s r e, ParseRanges s = (r, Some e) -> r = [].
Proof.
  intros s r e H. unfold ParseRanges in H.
  destruct (ParseRanges_members _) as [rs [e1|]]; [now inversion H|].
  destruct (Validate rs) as [rs' [e2|]]; now inversion H.
Qed.

(** C9, as the code has it: [Validate] sorts its receiver in place before it
    checks anything, and the sort stays when the call fails.  Then the set
    holds the same intervals as before, none added, dropped or altered, in
    ascending order of (low, high); it is as it was only if it was in that
    order already.  [ParseRanges] hands back no set at all on failure. *)
Theorem Validate_failure_leaves_sorted :
  (forall (r r' : YangRange) (e : error),
      Validate r = (r', Some e) ->
      r' = sort_Sort r
      /\ Permutation r r'
      /\ ascending r'
      /\ (ascending r -> r' = r))
  /\ (forall s r e, ParseRanges s = (r, Some e) -> r = []).
Proof.
  split; [|exact ParseRanges_failure_nil].
  intros r r' e H.
  assert (E : r' = sort_Sort r).
  { unfold Validate in H. destruct (sort_Sort r) as [|r0 rest]; [discriminate|].
    destruct (negb (YRange_Valid r0)); now inversion H. }
  subst r'. split; [reflexivity|]. split; [apply sort_Sort_perm|].
  split; [apply sort_Sort_ascending | apply sort_Sort_sorted].
Qed.

Lemma Validate_failure_leaves_sorted_witness :
  Validate [range_of 5 15; range_of 1 10]
  = ([range_of 1 10; range_of 5 15], Some ErrOverlapping)
  /\ Permutation [range_of 5 15; range_of 1 10] [range_of 1 10; range_of 5 15].
Proof.
  split; [vm_compute; reflexivity|].
  apply (proj1 Validate_failure_leaves_sorted
           [range_of 5 15; range_of 1 10] [range_of 1 10; range_of 5 15]
           ErrOverlapping).
  vm_compute; reflexivity.
Defined.

(** C9 as stated does not hold: on 5..15|1..10 [Validate] fails with the
    overlap error and leaves the set reordered to 1..10|5..15. *)
Lemma Validate_failure_reorders :
  ~ (forall (r r' : YangRange) (e : error), Validate r = (r', Some e) -> r' = r).
Proof.
  intros H.
  specialize (H [range_of 5 15; range_of 1 10] [range_of 1 10; range_of 5 15]
                ErrOverlapping).
  assert (V : Validate [range_of 5 15; range_of 1 10]
              = ([range_of 1 10; range_of 5 15], Some ErrOverlapping))
    by (vm_compute; reflexivity).
  specialize (H V). discriminate H.
Qed.

(** ** Trichotomy *)

(** [ParseNumber] returns one of the two sentinel constants or a Number of
    kind Positive or Negative. *)
Lemma ParseNumber_kind :
  forall s n e,
    ParseNumber s = (n, e) ->
    n = maxNumber \/ n = minNumber \/ Kind n = Positive \/ Kind n = Negative.
Proof.
  intros s n e. unfold ParseNumber.
  destruct (strings.TrimSpace s =? "max")%string; [intros H; left; congruence|].
  destruct (strings.TrimSpace s =? "min")%string;
    [intros H; right; left; congruence|].
  destruct (strings.TrimSpace s =? "")%string;
    [intros H; inversion H; subst; auto|].
  destruct ((strings.TrimSpace s =? "+")%string || (strings.TrimSpace s =? "-")%string);
    [intros H; inversion H; subst; auto|].
  destruct (strings.TrimSpace s) as [|c r]; simpl.
  - destruct (strconv.ParseUint "") as [v err]. intros H; inversion H; subst; auto.
  - destruct (byte_of c =? 43); [|destruct (byte_of c =? 45)];
      match goal with
      | |- context [(List.length ?p =? 1)%nat] =>
          destruct (List.length p =? 1)%nat;
          [|destruct (2 <? List.length p)%nat]
      end;
      try (destruct (strconv.ParseUint _) as [v err]);
      try (destruct (strconv.ParseFloat _) as [dec err]);
      intros H; inversion H; subst; simpl; auto.
Qed.

Lemma constructible_sentinel :
  forall n,
    constructible n ->
    (Kind n = MinNumber -> n = minNumber) /\ (Kind n = MaxNumber -> n = maxNumber).
Proof.
  intros n C. destruct C as [i Hi|u Hu|s n H].
  - unfold FromInt. destruct (i <? 0); simpl; split; discriminate.
  - split; discriminate.
  - destruct (ParseNumber_kind _ _ _ H) as [E|[E|[E|E]]]; subst; simpl;
      split; intro K; try reflexivity; try discriminate; congruence.
Qed.

(** When trichotomy holds.  The order of two constructible Numbers looks at
    kind and magnitude only, equality also at the Decimal component: exactly
    one of a.Less(b), a.Equal(b), b.Less(a) holds unless a and b have the
    same kind and magnitude and different Decimal components, and then none
    holds.  For every constructible value the min sentinel is less than or
    equal to it and the max sentinel greater than or equal. *)
Lemma Number_trichotomy :
  forall a b : Number,
    constructible a ->
    constructible b ->
    ((Kind a = Kind b -> Value a = Value b ->
      float64.eqb (Decimal a) (Decimal b) = true) ->
     exactly_one (Number_Less a b) (Number_Equal a b) (Number_Less b a))
    /\ (Kind a = Kind b -> Value a = Value b ->
        float64.eqb (Decimal a) (Decimal b) = false ->
        Number_Less a b = false /\ Number_Equal a b = false
        /\ Number_Less b a = false)
    /\ Number_Less a minNumber = false
    /\ (Number_Less minNumber a = true \/ Number_Equal minNumber a = true)
    /\ Number_Less maxNumber a = false
    /\ (Number_Less a maxNumber = true \/ Number_Equal a maxNumber = true).
Proof.
  intros a b Ca Cb.
  destruct (constructible_sentinel a Ca) as [Amin Amax].
  destruct (constructible_sentinel b Cb) as [Bmin Bmax].
  destruct a as [ka va da], b as [kb vb db]; simpl in *.
  split; [|split].
  - intros D. unfold exactly_one, Number_Less, Number_Equal; simpl.
    destruct ka, kb; simpl;
      try (specialize (Amin eq_refl)); try (specialize (Amax eq_refl));
      try (specialize (Bmin eq_refl)); try (specialize (Bmax eq_refl));
      try (inversion Amin; subst); try (inversion Amax; subst);
      try (inversion Bmin; subst); try (inversion Bmax; subst);
      simpl; try tauto;
      unfold Z.gtb;
      rewrite ?(Z.ltb_compare va vb), ?(Z.ltb_compare vb va),
        (Z.eqb_compare va vb), (Z.compare_antisym va vb);
      destruct (Z.compare_spec va vb) as [E|L|G]; simpl; try tauto;
      rewrite (D eq_refl E); tauto.
  - intros K V D. subst kb vb. unfold Number_Less, Number_Equal; simpl.
    rewrite D, andb_false_r.
    destruct ka; simpl; rewrite ?Z.ltb_irrefl; unfold Z.gtb;
      rewrite ?Z.compare_refl; auto.
  - unfold Number_Less, Number_Equal; simpl.
    destruct ka; simpl;
      try (specialize (Amin eq_refl)); try (specialize (Amax eq_refl));
      try (inversion Amin; subst); try (inversion Amax; subst);
      simpl; auto.
Qed.

(** No trichotomy over all constructible Numbers. *)
Lemma Number_trichotomy_fails_on_fractions :
  ~ (forall a b : Number,
        constructible a ->
        constructible b ->
        exactly_one (Number_Less a b) (Number_Equal a b) (Number_Less b a)).
Proof.
  intros H.
  assert (Ca : constructible (fst (ParseNumber "1.5"))).
  { apply (constructible_ParseNumber "1.5"). vm_compute. reflexivity. }
  assert (Cb : constructible (fst (ParseNumber "1.25"))).
  { apply (constructible_ParseNumber "1.25"). vm_compute. reflexivity. }
  specialize (H _ _ Ca Cb). vm_compute in H.
  destruct H as [[H _]|[[_ [H _]]|[_ [_ H]]]]; discriminate H.
Qed.

(** C3: [ParseNumber] keeps the fraction of a literal in the Decimal
    component; [Less] compares kind and magnitude and never reads it, while
    [Equal], the struct equality, does.  So "1.5" and "1.25" parse to two
    Numbers of magnitude 1 neither of which is Less than the other and which
    are not Equal: none of the three relations holds between them, where
    between "1.5" and "2.5" exactly one does. *)
Theorem Number_order_misses_fraction :
  let a := mkNumber Positive 1 (S754_finite false 6755399441055744 (-52)) in
  let b := mkNumber Positive 1 (S754_finite false 5629499534213120 (-52)) in
  ParseNumber "1.5" = (a, None)
  /\ ParseNumber "1.25" = (b, None)
  /\ Number_Less a b = false
  /\ Number_Equal a b = false
  /\ Number_Less b a = false
  /\ exactly_one (Number_Less a (fst (ParseNumber "2.5")))
       (Number_Equal a (fst (ParseNumber "2.5")))
       (Number_Less (fst (ParseNumber "2.5")) a).
Proof.
  repeat split; try (vm_compute; reflexivity).
  left. repeat split; vm_compute; reflexivity.
Qed.

(** ** Byte strings *)

Lemma append_assoc :
  forall a b c : string, ((a ++ b) ++ c)%string = (a ++ (b ++ c))%string.
Proof.
  induction a as [|x a IH]; intros b c; simpl; [reflexivity | now rewrite IH].
Qed.

Lemma append_nil_r : forall a : string, (a ++ "")%string = a.
Proof.
  induction a as [|x a IH]; simpl; [reflexivity | now rewrite IH].
Qed.

Lemma rev_append_rev :
  forall s acc, strings.rev_append s acc = (strings.rev s ++ acc)%string.
Proof.
  unfold strings.rev.
  induction s as [|c r IH]; intros acc; simpl; [reflexivity|].
  rewrite IH, (IH (String c "")), append_assoc. reflexivity.
Qed.

Lemma rev_cons :
  forall c r, strings.rev (String c r) = (strings.rev r ++ String c "")%string.
Proof.
  intros c r. unfold strings.rev at 1. simpl. apply rev_append_rev.
Qed.

Lemma rev_app :
  forall a b, strings.rev (a ++ b) = (strings.rev b ++ strings.rev a)%string.
Proof.
  induction a as [|x a IH]; intros b; simpl.
  - now rewrite append_nil_r.
  - now rewrite !rev_cons, IH, append_assoc.
Qed.

Lemma rev_involutive : forall s, strings.rev (strings.rev s) = s.
Proof.
  induction s as [|c r IH]; [reflexivity|].
  rewrite rev_cons, rev_app, IH. reflexivity.
Qed.

(** ** Trimming *)

Section TrimFacts.
Variable p1 : Z -> bool.
Variable p2 : Z -> Z -> bool.
Variable p3 : Z -> Z -> Z -> bool.

Lemma clean_fixed :
  forall s, clean p1 p2 p3 s = true -> strings.trim_runes p1 p2 p3 s = s.
Proof.
  intros [|c1 [|c2 [|c3 r]]]; simpl; try reflexivity;
    destruct (p1 (byte_of c1)); simpl; try discriminate; try reflexivity;
    destruct (p2 (byte_of c1) (byte_of c2)); simpl; try discriminate;
    try reflexivity;
    destruct (p3 (byte_of c1) (byte_of c2) (byte_of c3)); simpl;
    try discriminate; reflexivity.
Qed.

Lemma trim_runes_clean :
  forall s, clean p1 p2 p3 (strings.trim_runes p1 p2 p3 s) = true.
Proof.
  intros s. functional induction (strings.trim_runes p1 p2 p3 s);
    try assumption; simpl;
    repeat match goal with H : _ = false |- _ => rewrite H; clear H end;
    reflexivity.
Qed.

Lemma trim_runes_suffix :
  forall s, exists p, s = (p ++ strings.trim_runes p1 p2 p3 s)%string.
Proof.
  intros s. functional induction (strings.trim_runes p1 p2 p3 s);
    try (now exists "").
  - destruct IHs0 as [p E]. exists (String c1 p). simpl. now rewrite <- E.
  - destruct IHs0 as [p E]. exists (String c1 (String c2 p)). simpl. now rewrite <- E.
  - destruct IHs0 as [p E]. exists (String c1 (String c2 (String c3 p))).
    simpl. now rewrite <- E.
Qed.

Lemma clean_prefix :
  forall u v, clean p1 p2 p3 (u ++ v) = true -> clean p1 p2 p3 u = true.
Proof.
  intros [|c1 [|c2 [|c3 u]]] v; simpl; try reflexivity.
  - destruct (p1 (byte_of c1)); simpl; [discriminate | reflexivity].
  - destruct (p1 (byte_of c1)); simpl; [discriminate|].
    destruct (p2 (byte_of c1) (byte_of c2)); simpl; [discriminate | reflexivity].
  - trivial.
Qed.

Lemma trim_runes_idempotent :
  forall s,
    strings.trim_runes p1 p2 p3 (strings.trim_runes p1 p2 p3 s)
    = strings.trim_runes p1 p2 p3 s.
Proof.
  intros s. apply clean_fixed, trim_runes_clean.
Qed.

End TrimFacts.

Lemma TrimSpace_idempotent :
  forall s, strings.TrimSpace (strings.TrimSpace s) = strings.TrimSpace s.
Proof.
  intros s. unfold strings.TrimSpace.
  set (t := strings.TrimLeft s).
  assert (L : strings.TrimLeft (strings.TrimRight t) = strings.TrimRight t).
  { unfold strings.TrimRight, strings.TrimLeft.
    destruct (trim_runes_suffix strings.space1 (fun a b => strings.space2 b a)
                (fun a b c => strings.space3 c b a) (strings.rev t)) as [p E].
    apply clean_fixed.
    apply (clean_prefix _ _ _ _ (strings.rev p)).
    rewrite <- rev_app, <- E, rev_involutive.
    apply trim_runes_clean. }
  rewrite L. unfold strings.TrimRight at 1 2.
  rewrite rev_involutive, trim_runes_idempotent. reflexivity.
Qed.

Lemma TrimSpace_white_space :
  forall s, white_space_only s = true -> strings.TrimSpace s = "".
Proof.
  intros s H. unfold strings.TrimSpace.
  assert (L : strings.TrimLeft s = "").
  { unfold strings.TrimLeft. revert H.
    functional induction
      (strings.trim_runes strings.space1 strings.space2 strings.space3 s);
      intros H; simpl in H;
      repeat match goal with
        | E : strings.space1 _ = _ |- _ => rewrite E in H; clear E
        | E : strings.space2 _ _ = _ |- _ => rewrite E in H; clear E
        | E : strings.space3 _ _ _ = _ |- _ => rewrite E in H; clear E
        end;
      simpl in H; auto; discriminate. }
  rewrite L. reflexivity.
Qed.

(** C10: [ParseNumber] strips the white space around its input before
    anything else: it gives the same result on s and on s trimmed, the padded
    literal " 5 " is read as 5, and a string of white space only is refused
    with the empty-input error. *)
Theorem ParseNumber_trims :
  (forall s, ParseNumber s = ParseNumber (strings.TrimSpace s))
  /\ ParseNumber " 5 " = (FromUint 5, None)
  /\ (forall s,
         white_space_only s = true ->
         ParseNumber s = (Number_zero, Some ErrEmptyString)).
Proof.
  split; [|split].
  - intros s. unfold ParseNumber. rewrite TrimSpace_idempotent. reflexivity.
  - vm_compute. reflexivity.
  - intros s H. unfold ParseNumber. rewrite (TrimSpace_white_space s H).
    reflexivity.
Qed.

Lemma ParseNumber_trims_witness :
  ParseNumber (String (ascii_of 9) "  ") = (Number_zero, Some ErrEmptyString).
Proof.
  apply (proj2 (proj2 ParseNumber_trims)). reflexivity.
Defined.

(** ** Decimal rendering and parsing *)

Lemma byte_of_ascii_of : forall z, 0 <= z < 256 -> byte_of (ascii_of z) = z.
Proof.
  intros z H. unfold byte_of, ascii_of.
  rewrite N_ascii_embedding; lia.
Qed.

Lemma byte_of_nonneg : forall c, 0 <= byte_of c.
Proof. intros c. unfold byte_of. lia. Qed.

Lemma is_digit_bounds : forall z, is_digit z = true <-> 48 <= z <= 57.
Proof.
  intros z. unfold is_digit. rewrite andb_true_iff, !Z.leb_le. tauto.
Qed.

Lemma digits_only_app :
  forall a b, digits_only (a ++ b) = digits_only a && digits_only b.
Proof.
  induction a as [|c a IH]; intros b; simpl; [reflexivity|].
  now rewrite IH, andb_assoc.
Qed.

Lemma digits_only_rev : forall s, digits_only (strings.rev s) = digits_only s.
Proof.
  induction s as [|c r IH]; [reflexivity|].
  rewrite rev_cons, digits_only_app, IH. simpl.
  rewrite andb_true_r. apply andb_comm.
Qed.

(** What [FormatUint_digits] puts in front of [acc]: digits only, the first
    of them not a zero unless the number is zero. *)
Lemma FormatUint_digits_shape :
  forall fuel v acc,
    0 <= v < 10 ^ Z.of_nat fuel ->
    exists pre,
      strconv.FormatUint_digits fuel v acc = (pre ++ acc)%string
      /\ digits_only pre = true
      /\ (0 < v -> exists d r, pre = String (ascii_of (48 + d)) r /\ 1 <= d <= 9).
Proof.
  induction fuel as [|f IH]; intros v acc Hv.
  - exists "". simpl in *. repeat split. intros; lia.
  - rewrite Nat2Z.inj_succ, Z.pow_succ_r in Hv by lia.
    cbn [strconv.FormatUint_digits].
    assert (Hd : 0 <= v mod 10 < 10) by (apply Z.mod_pos_bound; lia).
    assert (Dg : forall d, 0 <= d < 10 ->
                   is_digit (byte_of (ascii_of (48 + d))) = true).
    { intros d H. rewrite byte_of_ascii_of by lia. apply is_digit_bounds. lia. }
    destruct (Z.ltb_spec v 10) as [Small|Big].
    + exists (String (ascii_of (48 + v mod 10)) ""). cbn [append digits_only].
      rewrite (Dg _ Hd). repeat split.
      intros Pos. exists (v mod 10), "". split; [reflexivity|].
      rewrite Z.mod_small by lia. lia.
    + assert (Hq : 0 <= v / 10 < 10 ^ Z.of_nat f).
      { split; [apply Z.div_pos; lia | apply Z.div_lt_upper_bound; lia]. }
      destruct (IH (v / 10) (String (ascii_of (48 + v mod 10)) acc) Hq)
        as (pre & E & D & Lead).
      exists (pre ++ String (ascii_of (48 + v mod 10)) "")%string.
      rewrite E, append_assoc. cbn [append]. split; [reflexivity|]. split.
      * rewrite digits_only_app, D. cbn [digits_only]. now rewrite (Dg _ Hd).
      * intros _. destruct Lead as (d & r & Ep & Hd1).
        { apply Z.div_str_pos. lia. }
        exists d, (r ++ String (ascii_of (48 + v mod 10)) "")%string.
        rewrite Ep. cbn [append]. split; [reflexivity | exact Hd1].
Qed.

(** One turn of the digit loop on a decimal digit that does not overflow. *)
Lemma ParseUint_loop_digit :
  forall cutoff maxVal d n r us,
    0 <= d < 10 ->
    0 <= n < cutoff ->
    n * 10 + d <= maxVal ->
    maxVal < 2 ^ 64 ->
    strconv.ParseUint_loop 10 cutoff maxVal (String (ascii_of (48 + d)) r) us n
    = strconv.ParseUint_loop 10 cutoff maxVal r us (n * 10 + d).
Proof.
  intros cutoff maxVal d n r us Hd Hn Hmax Hlim.
  cbn [strconv.ParseUint_loop].
  rewrite byte_of_ascii_of by lia.
  replace (48 + d =? 95) with false by (symmetry; apply Z.eqb_neq; lia).
  replace (is_digit (48 + d)) with true by (symmetry; apply is_digit_bounds; lia).
  replace (48 + d - 48) with d by lia.
  rewrite !Z.geb_leb.
  replace (10 <=? d) with false by (symmetry; apply Z.leb_gt; lia).
  replace (cutoff <=? n) with false by (symmetry; apply Z.leb_gt; lia).
  unfold to_uint64.
  rewrite (Z.mod_small (n * 10)) by lia.
  rewrite (Z.mod_small (n * 10 + d)) by lia.
  replace (n * 10 + d <? n * 10) with false by (symmetry; apply Z.ltb_ge; lia).
  rewrite Z.gtb_ltb.
  replace (maxVal <? n * 10 + d) with false by (symmetry; apply Z.ltb_ge; lia).
  reflexivity.
Qed.

Lemma ParseUint_loop_FormatUint_digits :
  forall cutoff maxVal fuel v acc us,
    0 <= v < 10 ^ Z.of_nat fuel ->
    v <= maxVal ->
    maxVal < 2 ^ 64 ->
    maxVal / 10 < cutoff ->
    strconv.ParseUint_loop 10 cutoff maxVal
      (strconv.FormatUint_digits fuel v acc) us 0
    = strconv.ParseUint_loop 10 cutoff maxVal acc us v.
Proof.
  intros cutoff maxVal. induction fuel as [|f IH]; intros v acc us Hv Hmax Hlim Hcut.
  - simpl in *. replace v with 0 by lia. reflexivity.
  - rewrite Nat2Z.inj_succ, Z.pow_succ_r in Hv by lia.
    cbn [strconv.FormatUint_digits].
    assert (Hd : 0 <= v mod 10 < 10) by (apply Z.mod_pos_bound; lia).
    assert (Hc : 0 <= maxVal / 10) by (apply Z.div_pos; lia).
    destruct (Z.ltb_spec v 10) as [Small|Big].
    + rewrite ParseUint_loop_digit; try lia.
      * rewrite Z.mod_small by lia. reflexivity.
      * rewrite Z.mod_small by lia. lia.
    + assert (Hq : 0 <= v / 10 < 10 ^ Z.of_nat f).
      { split; [apply Z.div_pos; lia | apply Z.div_lt_upper_bound; lia]. }
      assert (Hle : v / 10 <= maxVal / 10) by (apply Z.div_le_mono; lia).
      pose proof (Z.div_mod v 10 ltac:(lia)) as DM.
      rewrite IH; try lia.
      rewrite ParseUint_loop_digit; try lia.
      replace (v / 10 * 10 + v mod 10) with v by lia. reflexivity.
Qed.

(** [ParseUint] reads back what [FormatUint] writes. *)
Lemma ParseUint_FormatUint :
  forall v, 0 <= v <= maxUint64 -> strconv.ParseUint (strconv.FormatUint v) = (v, None).
Proof.
  intros v Hv. unfold maxUint64 in Hv.
  destruct (Z.eq_dec v 0) as [->|Nz]; [vm_compute; reflexivity|].
  unfold strconv.FormatUint.
  assert (Hf : 0 <= v < 10 ^ Z.of_nat 20) by (change (10 ^ Z.of_nat 20) with (10 ^ 20); lia).
  destruct (FormatUint_digits_shape 20 v "" Hf) as (pre & E & D & Lead).
  destruct Lead as (d & r & Ep & Hd); [lia|].
  pose proof (ParseUint_loop_FormatUint_digits
                (maxUint64 / 10 + 1) maxUint64 20 v "" false Hf) as L.
  rewrite E, Ep in *. cbn [append] in *.
  unfold strconv.ParseUint.
  rewrite byte_of_ascii_of by lia.
  replace (48 + d =? 48) with false by (symmetry; apply Z.eqb_neq; lia).
  change (to_uint64 (to_uint64 (Z.shiftl 1 64) - 1)) with maxUint64.
  rewrite L; [reflexivity | | |]; unfold maxUint64; lia.
Qed.

(** *** Parsing a string of digits, with or without a minus sign *)

Lemma plain_head_clean :
  forall c r,
    plain c ->
    clean strings.space1 strings.space2 strings.space3 (String c r) = true
    /\ clean strings.space1 (fun a b => strings.space2 b a)
         (fun a b c => strings.space3 c b a) (String c r) = true.
Proof.
  intros c r [Hlt Hsp]. pose proof (byte_of_nonneg c) as Hge.
  assert (E194 : (byte_of c =? 194) = false) by (apply Z.eqb_neq; lia).
  assert (E225 : (byte_of c =? 225) = false) by (apply Z.eqb_neq; lia).
  assert (E226 : (byte_of c =? 226) = false) by (apply Z.eqb_neq; lia).
  assert (E227 : (byte_of c =? 227) = false) by (apply Z.eqb_neq; lia).
  assert (E133 : (byte_of c =? 133) = false) by (apply Z.eqb_neq; lia).
  assert (E160 : (byte_of c =? 160) = false) by (apply Z.eqb_neq; lia).
  assert (E128 : (byte_of c =? 128) = false) by (apply Z.eqb_neq; lia).
  assert (E168 : (byte_of c =? 168) = false) by (apply Z.eqb_neq; lia).
  assert (E169 : (byte_of c =? 169) = false) by (apply Z.eqb_neq; lia).
  assert (E175 : (byte_of c =? 175) = false) by (apply Z.eqb_neq; lia).
  assert (E159 : (byte_of c =? 159) = false) by (apply Z.eqb_neq; lia).
  assert (L128 : (128 <=? byte_of c) = false) by (apply Z.leb_gt; lia).
  split; unfold clean, strings.space2, strings.space3; rewrite Hsp;
    destruct r as [|c2 [|c3 r]]; try reflexivity;
    rewrite ?E194, ?E225, ?E226, ?E227, ?E133, ?E160, ?E128, ?E168, ?E169,
      ?E175, ?E159, ?L128;
    rewrite ?andb_false_l, ?andb_false_r, ?orb_false_l, ?orb_false_r;
    rewrite ?andb_false_l, ?andb_false_r, ?orb_false_l, ?orb_false_r;
    reflexivity.
Qed.

(** A string whose first and last bytes are plain is not trimmed. *)
Lemma TrimSpace_plain :
  forall s c r c' r',
    s = String c r ->
    strings.rev s = String c' r' ->
    plain c -> plain c' ->
    strings.TrimSpace s = s.
Proof.
  intros s c r c' r' Es Er Pc Pc'.
  unfold strings.TrimSpace, strings.TrimRight, strings.TrimLeft.
  rewrite Es at 1.
  rewrite (clean_fixed _ _ _ _ (proj1 (plain_head_clean c r Pc))), <- Es, Er.
  rewrite (clean_fixed _ _ _ _ (proj2 (plain_head_clean c' r' Pc'))), <- Er.
  apply rev_involutive.
Qed.

Lemma digit_plain : forall c, is_digit (byte_of c) = true -> plain c.
Proof.
  intros c H. apply is_digit_bounds in H. split; [lia|].
  unfold strings.space1.
  replace (byte_of c <=? 13) with false by (symmetry; apply Z.leb_gt; lia).
  replace (byte_of c =? 32) with false by (symmetry; apply Z.eqb_neq; lia).
  now rewrite andb_false_r.
Qed.

Lemma minus_plain : plain "-"%char.
Proof. split; vm_compute; reflexivity. Qed.

Lemma digits_only_last :
  forall s,
    digits_only s = true -> s <> "" ->
    exists c' r', strings.rev s = String c' r' /\ is_digit (byte_of c') = true.
Proof.
  intros s D N. rewrite <- digits_only_rev in D.
  destruct (strings.rev s) as [|c' r'] eqn:E.
  - exfalso. apply N. rewrite <- (rev_involutive s), E. reflexivity.
  - exists c', r'. split; [reflexivity|].
    simpl in D. apply andb_true_iff in D. tauto.
Qed.

Lemma TrimSpace_digits :
  forall s, digits_only s = true -> s <> "" -> strings.TrimSpace s = s.
Proof.
  intros s D N. destruct (digits_only_last s D N) as (c' & r' & Er & Dc').
  destruct s as [|c r]; [congruence|].
  simpl in D. apply andb_true_iff in D. destruct D as [Dc _].
  eapply TrimSpace_plain; eauto using digit_plain.
Qed.

Lemma TrimSpace_minus_digits :
  forall s,
    digits_only s = true -> s <> "" ->
    strings.TrimSpace (String "-" s) = String "-" s.
Proof.
  intros s D N. destruct (digits_only_last s D N) as (c' & r' & Er & Dc').
  eapply TrimSpace_plain with (c' := c'); eauto using digit_plain, minus_plain.
  rewrite rev_cons, Er. reflexivity.
Qed.

Lemma prefix_dot_digit :
  forall c r, is_digit (byte_of c) = true -> prefix "." (String c r) = false.
Proof.
  intros c r D. cbn [prefix].
  destruct (ascii_dec "." c) as [<-|_]; [vm_compute in D; discriminate | reflexivity].
Qed.

Lemma Split_from_digits :
  forall s cur,
    digits_only s = true ->
    strings.Split_from "." s O cur = [strings.rev_append cur s].
Proof.
  induction s as [|c r IH]; intros cur D; [reflexivity|].
  cbn [digits_only] in D. apply andb_true_iff in D. destruct D as [Dc Dr].
  cbn [strings.Split_from strings.rev_append].
  rewrite (prefix_dot_digit c r Dc). now apply IH.
Qed.

Lemma Split_digits :
  forall s, digits_only s = true -> strings.Split s "." = [s].
Proof.
  intros s D. unfold strings.Split. now rewrite Split_from_digits.
Qed.

(** The tests [ParseNumber] makes on the first byte, when it is a digit. *)
Lemma digit_head :
  forall c r,
    is_digit (byte_of c) = true ->
    (String c r =? "max")%string = false
    /\ (String c r =? "min")%string = false
    /\ (String c r =? "+")%string = false
    /\ (String c r =? "-")%string = false
    /\ (byte_of c =? 43) = false
    /\ (byte_of c =? 45) = false.
Proof.
  intros c r D.
  assert (N : forall x : ascii, is_digit (byte_of x) = false -> (c =? x)%char = false).
  { intros x Hx. destruct (Ascii.eqb_spec c x); [congruence | reflexivity]. }
  apply is_digit_bounds in D.
  cbn [String.eqb]. rewrite !N by reflexivity.
  repeat split; apply Z.eqb_neq; lia.
Qed.

Lemma ParseNumber_digits :
  forall s,
    digits_only s = true -> s <> "" ->
    ParseNumber s =
      (mkNumber Positive (fst (strconv.ParseUint s)) float64.zero,
       snd (strconv.ParseUint s)).
Proof.
  intros s D N. unfold ParseNumber. rewrite (TrimSpace_digits s D N).
  destruct s as [|c r]; [congruence|].
  pose proof D as D'. simpl in D'. apply andb_true_iff in D'. destruct D' as [Dc _].
  destruct (digit_head c r Dc) as (E1 & E2 & E3 & E4 & E5 & E6).
  rewrite E1, E2, E3, E4, E5, E6.
  replace (String c r =? "")%string with false by reflexivity.
  cbn [orb]. rewrite (Split_digits _ D). cbn [List.length Nat.eqb].
  destruct (strconv.ParseUint (String c r)); reflexivity.
Qed.

Lemma ParseNumber_minus_digits :
  forall s,
    digits_only s = true -> s <> "" ->
    ParseNumber (String "-" s) =
      (mkNumber Negative (fst (strconv.ParseUint s)) float64.zero,
       snd (strconv.ParseUint s)).
Proof.
  intros s D N. unfold ParseNumber. rewrite (TrimSpace_minus_digits s D N).
  destruct s as [|c r]; [congruence|].
  replace (String "-" (String c r) =? "max")%string with false by reflexivity.
  replace (String "-" (String c r) =? "min")%string with false by reflexivity.
  replace (String "-" (String c r) =? "")%string with false by reflexivity.
  replace (String "-" (String c r) =? "+")%string with false by reflexivity.
  replace (String "-" (String c r) =? "-")%string with false by reflexivity.
  cbn [orb]. change (byte_of "-" =? 43) with false. change (byte_of "-" =? 45) with true.
  cbv iota. rewrite (Split_digits _ D). cbn [List.length Nat.eqb].
  destruct (strconv.ParseUint (String c r)); reflexivity.
Qed.

Lemma FormatUint_digits_only :
  forall v,
    0 <= v <= maxUint64 ->
    digits_only (strconv.FormatUint v) = true /\ strconv.FormatUint v <> "".
Proof.
  intros v Hv. unfold maxUint64 in Hv.
  destruct (Z.eq_dec v 0) as [->|Nz]; [split; [reflexivity | discriminate]|].
  assert (Hf : 0 <= v < 10 ^ Z.of_nat 20)
    by (change (10 ^ Z.of_nat 20) with (10 ^ 20); lia).
  unfold strconv.FormatUint.
  destruct (FormatUint_digits_shape 20 v "" Hf) as (pre & E & D & Lead).
  destruct Lead as (d & r & Ep & Hd); [lia|].
  rewrite E, append_nil_r. split; [exact D|]. rewrite Ep. discriminate.
Qed.

(** [ParseNumber] reads back the rendering of a Number without a fraction. *)
Lemma ParseNumber_String :
  forall k v,
    0 <= v <= maxUint64 ->
    (k = Positive \/ k = Negative) ->
    ParseNumber (Number_String (mkNumber k v float64.zero))
    = (mkNumber k v float64.zero, None).
Proof.
  intros k v Hv Hk. destruct (FormatUint_digits_only v Hv) as [D N].
  unfold Number_String. destruct Hk as [-> | ->]; simpl Kind; cbn iota; simpl Value.
  - rewrite (ParseNumber_digits _ D N), (ParseUint_FormatUint v Hv). reflexivity.
  - change ("-" ++ strconv.FormatUint v)%string with (String "-" (strconv.FormatUint v)).
    rewrite (ParseNumber_minus_digits _ D N), (ParseUint_FormatUint v Hv). reflexivity.
Qed.

(** *** Literals without a decimal point *)

Lemma no_dot_app : forall a b, no_dot (a ++ b) = no_dot a && no_dot b.
Proof.
  induction a as [|c a IH]; intros b; simpl; [reflexivity|].
  now rewrite IH, andb_assoc.
Qed.

Lemma no_dot_rev : forall s, no_dot (strings.rev s) = no_dot s.
Proof.
  induction s as [|c r IH]; [reflexivity|].
  rewrite rev_cons, no_dot_app, IH. simpl.
  rewrite andb_true_r. apply andb_comm.
Qed.

Lemma no_dot_trim_runes :
  forall p1 p2 p3 s,
    no_dot s = true -> no_dot (strings.trim_runes p1 p2 p3 s) = true.
Proof.
  intros p1 p2 p3 s H.
  destruct (trim_runes_suffix p1 p2 p3 s) as [p E].
  rewrite E, no_dot_app in H. apply andb_true_iff in H. tauto.
Qed.

Lemma no_dot_TrimSpace :
  forall s, no_dot s = true -> no_dot (strings.TrimSpace s) = true.
Proof.
  intros s H. unfold strings.TrimSpace, strings.TrimRight, strings.TrimLeft.
  rewrite no_dot_rev. apply no_dot_trim_runes.
  rewrite no_dot_rev. now apply no_dot_trim_runes.
Qed.

Lemma Split_from_no_dot :
  forall s cur,
    no_dot s = true ->
    strings.Split_from "." s O cur = [strings.rev_append cur s].
Proof.
  induction s as [|c r IH]; intros cur D; [reflexivity|].
  cbn [no_dot] in D. apply andb_true_iff in D. destruct D as [Dc Dr].
  cbn [strings.Split_from strings.rev_append prefix].
  destruct (ascii_dec "." c) as [<-|_]; [discriminate Dc|].
  now apply IH.
Qed.

(** A Number read from a literal without a decimal point has no fraction. *)
Lemma ParseNumber_no_dot :
  forall s n e,
    no_dot s = true ->
    ParseNumber s = (n, e) ->
    Decimal n = float64.zero.
Proof.
  intros s n e D. apply no_dot_TrimSpace in D. unfold ParseNumber.
  destruct (strings.TrimSpace s =? "max")%string; [intros H; now inversion H|].
  destruct (strings.TrimSpace s =? "min")%string; [intros H; now inversion H|].
  destruct (strings.TrimSpace s =? "")%string; [intros H; now inversion H|].
  destruct ((strings.TrimSpace s =? "+")%string || (strings.TrimSpace s =? "-")%string);
    [intros H; now inversion H|].
  assert (S1 : forall t, no_dot t = true ->
                 (List.length (strings.Split t ".") =? 1)%nat = true).
  { intros t Ht. unfold strings.Split. now rewrite Split_from_no_dot. }
  destruct (strings.TrimSpace s) as [|c r].
  - simpl. destruct (strconv.ParseUint ""). intros H; now inversion H.
  - pose proof D as D'. cbn [no_dot] in D'. apply andb_true_iff in D'.
    destruct D' as [_ Dr].
    destruct (byte_of c =? 43); [|destruct (byte_of c =? 45)];
      rewrite S1 by assumption;
      destruct (strconv.ParseUint _); intros H; now inversion H.
Qed.

(** *** Magnitudes are unsigned 64-bit values *)

Lemma ParseUint_loop_range :
  forall base cutoff maxVal s us n,
    0 <= maxVal ->
    0 <= n <= maxVal ->
    match strconv.ParseUint_loop base cutoff maxVal s us n with
    | inl (v, _) => 0 <= v <= maxVal
    | inr (v, _) => 0 <= v <= maxVal
    end.
Proof.
  intros base cutoff maxVal s. induction s as [|ch r IH]; intros us n Hm Hn.
  - exact Hn.
  - cbn [strconv.ParseUint_loop].
    destruct (byte_of ch =? 95); [now apply IH|].
    destruct (if is_digit (byte_of ch) then _ else _) as [d|]; [|lia].
    destruct (d >=? base); [lia|].
    destruct (n >=? cutoff); [lia|].
    destruct ((_ <? _) || (_ >? _)) eqn:E; [lia|].
    apply IH; [exact Hm|].
    apply orb_false_iff in E. destruct E as [_ E].
    rewrite Z.gtb_ltb in E. apply Z.ltb_ge in E.
    split; [|exact E].
    unfold to_uint64. apply Z.mod_pos_bound. lia.
Qed.

Lemma ParseUint_range :
  forall s, 0 <= fst (strconv.ParseUint s) <= maxUint64.
Proof.
  intros s. unfold strconv.ParseUint.
  destruct s as [|c0 r0]; [vm_compute; split; discriminate|].
  change (to_uint64 (to_uint64 (Z.shiftl 1 64) - 1)) with maxUint64.
  destruct (if byte_of c0 =? 48 then _ else _) as [base digits].
  pose proof (ParseUint_loop_range base (maxUint64 / base + 1) maxUint64
                digits false 0) as R.
  destruct (strconv.ParseUint_loop _ _ _ _ _ _) as [[v us]|[v e]]; cbn [fst].
  - destruct (us && negb (strconv.underscoreOK (String c0 r0))); cbn [fst];
      [vm_compute; split; discriminate|].
    apply R; unfold maxUint64; lia.
  - apply R; unfold maxUint64; lia.
Qed.

Lemma float64_to_uint64_range :
  forall f, 0 <= float64.to_uint64 f <= maxUint64.
Proof.
  intros f. unfold float64.to_uint64, maxUint64.
  destruct (float64.trunc f) as [z|]; [|lia].
  destruct (z <? 2 ^ 64); [|lia].
  pose proof (Z.mod_pos_bound z (2 ^ 64) ltac:(lia)). lia.
Qed.

Lemma ParseNumber_range :
  forall s n e, ParseNumber s = (n, e) -> 0 <= Value n <= maxUint64.
Proof.
  intros s n e. unfold ParseNumber.
  assert (Z0 : 0 <= 0 <= maxUint64) by (vm_compute; split; discriminate).
  destruct (strings.TrimSpace s =? "max")%string; [intros H; now inversion H|].
  destruct (strings.TrimSpace s =? "min")%string; [intros H; now inversion H|].
  destruct (strings.TrimSpace s =? "")%string; [intros H; now inversion H|].
  destruct ((strings.TrimSpace s =? "+")%string || (strings.TrimSpace s =? "-")%string);
    [intros H; now inversion H|].
  destruct (strings.TrimSpace s) as [|c r]; simpl.
  - intros H; inversion H; subst; exact Z0.
  - destruct (byte_of c =? 43); [|destruct (byte_of c =? 45)];
      match goal with
      | |- context [(List.length ?p =? 1)%nat] =>
          destruct (List.length p =? 1)%nat;
          [|destruct (2 <? List.length p)%nat]
      end;
      try (match goal with
           | |- context [strconv.ParseUint ?t] =>
               pose proof (ParseUint_range t) as PR;
               destruct (strconv.ParseUint t) as [v err]
           end);
      try (match goal with
           | |- context [strconv.ParseFloat ?t] =>
               destruct (strconv.ParseFloat t) as [dec err]
           end);
      intros Q; inversion Q; subst; simpl;
      try exact PR; auto using float64_to_uint64_range.
Qed.

Lemma constructible_range :
  forall n, constructible n -> 0 <= Value n <= maxUint64.
Proof.
  intros n C. destruct C as [i Hi|u Hu|s n H].
  - unfold FromInt, maxUint64.
    destruct (i <? 0); simpl; unfold to_uint64;
      match goal with
      | |- context [?z mod 2 ^ 64] =>
          pose proof (Z.mod_pos_bound z (2 ^ 64) ltac:(lia))
      end; lia.
  - exact Hu.
  - exact (ParseNumber_range _ _ _ H).
Qed.

Lemma constructible_no_fraction :
  (forall i, Decimal (FromInt i) = float64.zero)
  /\ (forall u, Decimal (FromUint u) = float64.zero)
  /\ (forall s n e, no_dot s = true -> ParseNumber s = (n, e) ->
                    Decimal n = float64.zero).
Proof.
  split; [|split; [reflexivity | exact ParseNumber_no_dot]].
  intros i. unfold FromInt. destruct (i <? 0); reflexivity.
Qed.

(** Where the round trip holds.  For every constructible Number whose
    Decimal component is zero (every value made by FromInt, by FromUint or
    from a literal without a decimal point), [ParseNumber] succeeds on its
    rendering and gives a Number Equal to it; "min" and "max" are read back
    as the two sentinels. *)
Lemma ParseNumber_String_roundtrip :
  (forall v : Number,
      constructible v ->
      float64.eqb (Decimal v) float64.zero = true ->
      exists w,
        ParseNumber (Number_String v) = (w, None)
        /\ Number_Equal w v = true)
  /\ ParseNumber "min" = (minNumber, None)
  /\ ParseNumber "max" = (maxNumber, None).
Proof.
  split; [|split; vm_compute; reflexivity].
  intros v C Dz.
  pose proof (constructible_range v C) as R.
  destruct (constructible_sentinel v C) as [Smin Smax].
  destruct v as [k val d]; simpl in *.
  assert (Ez : float64.eqb float64.zero d = true).
  { destruct d as [s|s| |s m e]; try reflexivity; try discriminate Dz;
      destruct s; discriminate Dz. }
  destruct k.
  - exists (mkNumber Positive val float64.zero). split.
    + apply (ParseNumber_String Positive val R). now left.
    + unfold Number_Equal; simpl. now rewrite Z.eqb_refl, Ez.
  - exists (mkNumber Negative val float64.zero). split.
    + apply (ParseNumber_String Negative val R). now right.
    + unfold Number_Equal; simpl. now rewrite Z.eqb_refl, Ez.
  - exists minNumber. rewrite (Smin eq_refl). split; vm_compute; reflexivity.
  - exists maxNumber. rewrite (Smax eq_refl). split; vm_compute; reflexivity.
Qed.

(** No round trip over all constructible Numbers. *)
Lemma ParseNumber_String_loses_fraction :
  ~ (forall v : Number,
        constructible v ->
        exists w,
          ParseNumber (Number_String v) = (w, None)
          /\ Number_Equal w v = true).
Proof.
  intros H.
  assert (C : constructible (fst (ParseNumber "1.5"))).
  { apply (constructible_ParseNumber "1.5"). vm_compute. reflexivity. }
  destruct (H _ C) as (w & E & Q).
  vm_compute in E. inversion E; subst w. vm_compute in Q. discriminate Q.
Qed.

(** C5: [String] writes the sign and the magnitude of a Number and nothing
    of the Decimal component that [ParseNumber] keeps and [Equal] compares.
    So "1.5" parses to a Number of magnitude 1 and Decimal 1.5 that renders
    as "1", and "1" parses to the Number of magnitude 1 and Decimal zero,
    which is not Equal to the first: the round trip fails on it. *)
Theorem Number_String_drops_fraction :
  let v := mkNumber Positive 1 (S754_finite false 6755399441055744 (-52)) in
  ParseNumber "1.5" = (v, None)
  /\ Number_String v = "1"
  /\ ParseNumber (Number_String v) = (FromUint 1, None)
  /\ Number_Equal (FromUint 1) v = false.
Proof.
  repeat split; vm_compute; reflexivity.
Qed.

(** * Further properties *)

(** ** Numbers *)

Lemma int64_bounds :
  MinInt64 = - 9223372036854775808
  /\ MaxInt64 = 9223372036854775807
  /\ AbsMinInt64 = 9223372036854775808
  /\ maxUint64 = 18446744073709551615.
Proof. repeat split; reflexivity. Qed.

(** What [FromInt] builds, without the conversions. *)
Lemma FromInt_value :
  forall i,
    MinInt64 <= i <= MaxInt64 ->
    FromInt i =
      if i <? 0 then mkNumber Negative (- i) float64.zero
      else mkNumber Positive i float64.zero.
Proof.
  intros i Hi. destruct int64_bounds as (E1 & E2 & _). rewrite E1, E2 in Hi.
  unfold FromInt, to_uint64, to_int64.
  destruct (Z.ltb_spec i 0); f_equal.
  - destruct (Z.eq_dec i (- 9223372036854775808)) as [->|N]; [reflexivity|].
    rewrite (Z.mod_small (- i + 2 ^ 63)) by lia.
    rewrite Z.mod_small by lia. lia.
  - apply Z.mod_small. lia.
Qed.

(** X1: [Less] is a strict weak order on all Numbers: irreflexive,
    asymmetric, transitive, and a Number that is less than another is less
    than or greater than any third one. *)
Theorem Number_Less_strict_weak_order :
  (forall n, Number_Less n n = false)
  /\ (forall n m, Number_Less n m = true -> Number_Less m n = false)
  /\ (forall a b c,
         Number_Less a b = true -> Number_Less b c = true ->
         Number_Less a c = true)
  /\ (forall a b c,
         Number_Less a c = true ->
         Number_Less a b = true \/ Number_Less b c = true).
Proof.
  split; [exact Number_Less_irrefl|]. split; [|split].
  - intros n m H. apply Number_Less_false_iff. apply Number_Less_iff in H. lia.
  - intros a b c H1 H2. apply Number_Less_iff in H1, H2.
    apply Number_Less_iff. lia.
  - intros a b c H. apply Number_Less_iff in H.
    rewrite !Number_Less_iff. lia.
Qed.

Lemma Number_Less_strict_weak_order_witness :
  Number_Less (FromInt (-7)) maxNumber = true.
Proof.
  apply (proj1 (proj2 (proj2 Number_Less_strict_weak_order))
           (FromInt (-7)) (FromUint 3) maxNumber); reflexivity.
Defined.

(** X2: converting a signed 64-bit integer to a Number and back gives the
    integer, without error, the minimum included. *)
Theorem Number_Int_FromInt :
  forall i, MinInt64 <= i <= MaxInt64 -> Number_Int (FromInt i) = (i, None).
Proof.
  intros i Hi. rewrite (FromInt_value i Hi).
  destruct int64_bounds as (E1 & E2 & E3 & _). rewrite E1, E2 in Hi.
  unfold Number_Int, to_int64. rewrite E1, E2, E3.
  destruct (Z.ltb_spec i 0); simpl.
  - destruct (Z.eqb_spec (- i) 9223372036854775808) as [E|N].
    + f_equal. lia.
    + destruct (Z.ltb_spec (- i) 9223372036854775808); [|lia].
      f_equal. rewrite (Z.mod_small (- i + 2 ^ 63)) by lia.
      replace (- (- i + 2 ^ 63 - 2 ^ 63) + 2 ^ 63) with (i + 2 ^ 63) by lia.
      rewrite Z.mod_small by lia. lia.
  - destruct (Z.leb_spec i 9223372036854775807); [|lia].
    f_equal. rewrite Z.mod_small by lia. lia.
Qed.

Lemma Number_Int_FromInt_witness :
  Number_Int (FromInt MinInt64) = (MinInt64, None).
Proof.
  apply Number_Int_FromInt. vm_compute. split; discriminate.
Defined.

(** X3: on signed 64-bit integers [FromInt] carries the order and the
    equality of integers to [Less] and [Equal]. *)
Theorem FromInt_order :
  forall i j,
    MinInt64 <= i <= MaxInt64 ->
    MinInt64 <= j <= MaxInt64 ->
    Number_Less (FromInt i) (FromInt j) = (i <? j)
    /\ Number_Equal (FromInt i) (FromInt j) = (i =? j).
Proof.
  intros i j Hi Hj. rewrite (FromInt_value i Hi), (FromInt_value j Hj).
  unfold Number_Less, Number_Equal.
  destruct (Z.ltb_spec i 0), (Z.ltb_spec j 0); simpl; rewrite ?andb_true_r;
    split;
    repeat match goal with
      | |- context [?a >? ?b] => rewrite (Z.gtb_ltb a b)
      | |- context [?a <? ?b] => destruct (Z.ltb_spec a b)
      | |- context [?a =? ?b] => destruct (Z.eqb_spec a b)
      end; try reflexivity; lia.
Qed.

Lemma FromInt_order_witness :
  Number_Less (FromInt (-5)) (FromInt 3) = (-5 <? 3)
  /\ Number_Equal (FromInt (-5)) (FromInt 3) = (-5 =? 3).
Proof.
  apply FromInt_order; vm_compute; split; discriminate.
Defined.

(** X4: [Int] respects the order: when both conversions succeed, a Number
    less than another has an integer no greater, and a Number with a smaller
    integer is less. *)
Theorem Number_Int_monotone :
  forall a b ia ib,
    0 <= Value a -> 0 <= Value b ->
    Number_Int a = (ia, None) ->
    Number_Int b = (ib, None) ->
    (Number_Less a b = true -> ia <= ib)
    /\ (ia < ib -> Number_Less a b = true).
Proof.
  intros [ka va da] [kb vb db] ia ib Ha Hb.
  destruct int64_bounds as (E1 & E2 & E3 & _).
  unfold Number_Int, to_int64; simpl in *. rewrite E1, E2, E3.
  assert (S : forall v, 0 <= v < 9223372036854775808 ->
                (- ((v + 2 ^ 63) mod 2 ^ 64 - 2 ^ 63) + 2 ^ 63) mod 2 ^ 64 - 2 ^ 63
                = - v).
  { intros v Hv. rewrite (Z.mod_small (v + 2 ^ 63)) by lia.
    replace (- (v + 2 ^ 63 - 2 ^ 63) + 2 ^ 63) with (- v + 2 ^ 63) by lia.
    rewrite Z.mod_small by lia. lia. }
  assert (P : forall v, 0 <= v <= 9223372036854775807 ->
                (v + 2 ^ 63) mod 2 ^ 64 - 2 ^ 63 = v).
  { intros v Hv. rewrite Z.mod_small by lia. lia. }
  intros Ia Ib.
  destruct ka, kb;
    repeat match type of Ia with
      | context [?x =? ?y] => destruct (Z.eqb_spec x y)
      | context [?x <? ?y] => destruct (Z.ltb_spec x y)
      | context [?x <=? ?y] => destruct (Z.leb_spec x y)
      end; try discriminate Ia;
    repeat match type of Ib with
      | context [?x =? ?y] => destruct (Z.eqb_spec x y)
      | context [?x <? ?y] => destruct (Z.ltb_spec x y)
      | context [?x <=? ?y] => destruct (Z.leb_spec x y)
      end; try discriminate Ib;
    inversion Ia; inversion Ib; subst;
    rewrite ?S, ?P by lia;
    unfold Number_Less; simpl; rewrite ?Z.gtb_ltb, ?Z.ltb_lt;
    split; intros; try reflexivity; try discriminate; lia.
Qed.

Lemma Number_Int_monotone_witness :
  (Number_Less (FromInt (-7)) maxNumber = true -> -7 <= 9223372036854775807)
  /\ (-7 < 9223372036854775807 -> Number_Less (FromInt (-7)) maxNumber = true).
Proof.
  apply (Number_Int_monotone (FromInt (-7)) maxNumber (-7) 9223372036854775807);
    vm_compute; try reflexivity; discriminate.
Defined.

(** X5: adding one to the Number of a signed or unsigned 64-bit integer
    below the maximum gives the Number of the next integer; from -1 the
    kind changes to Positive. *)
Theorem Number_add_successor :
  (forall i,
      MinInt64 <= i < MaxInt64 ->
      Number_add (FromInt i) 1 = FromInt (i + 1))
  /\ (forall u,
         0 <= u < maxUint64 ->
         Number_add (FromUint u) 1 = FromUint (u + 1)).
Proof.
  destruct int64_bounds as (E1 & E2 & _ & E4). split.
  - intros i Hi. rewrite E1, E2 in Hi.
    rewrite (FromInt_value i), (FromInt_value (i + 1)) by (rewrite E1, E2; lia).
    unfold Number_add, to_uint64.
    destruct (Z.ltb_spec i 0), (Z.ltb_spec (i + 1) 0);
      cbn [Kind Value Decimal]; try lia.
    + destruct (Z.leb_spec (- i) 1); [lia|].
      f_equal. rewrite Z.mod_small by lia. lia.
    + destruct (Z.leb_spec (- i) 1); [|lia].
      f_equal. rewrite Z.mod_small by lia. lia.
    + f_equal. apply Z.mod_small. lia.
  - intros u Hu. rewrite E4 in Hu. unfold Number_add, FromUint, to_uint64.
    cbn [Kind Value Decimal]. f_equal. apply Z.mod_small. lia.
Qed.

Lemma Number_add_successor_witness :
  Number_add (FromInt (-1)) 1 = FromInt (-1 + 1).
Proof.
  apply (proj1 Number_add_successor). vm_compute. split; [discriminate | reflexivity].
Defined.

(** Adding one leaves a Number as it is or makes it greater, the wrap at
    2^64-1 apart. *)
Lemma Number_add_one_step :
  forall n,
    0 <= Value n <= maxUint64 ->
    ~ (Kind n = Positive /\ Value n = maxUint64) ->
    Number_add n 1 = n \/ Number_Less n (Number_add n 1) = true.
Proof.
  intros [k v d] Hv W. destruct int64_bounds as (_ & _ & _ & E4).
  rewrite E4 in *. cbn [Kind Value Decimal] in *.
  destruct k; unfold Number_add, Number_Less, to_uint64;
    cbn [Kind Value Decimal NumberKind_eqb andb negb]; try (now left); right.
  - assert (v <> 18446744073709551615) by (intros ->; now apply W).
    rewrite Z.mod_small by lia. apply Z.ltb_lt. lia.
  - destruct (Z.leb_spec v 1); cbn [Kind Value Decimal NumberKind_eqb andb negb];
      [reflexivity|].
    rewrite Z.mod_small by lia. rewrite Z.gtb_ltb. apply Z.ltb_lt. lia.
Qed.

(** X6: [add] does not check for overflow.  Adding one leaves a sentinel as
    it is and makes any other Number greater, except the Positive Number of
    magnitude 2^64-1, which wraps round to zero and so becomes smaller. *)
Theorem Number_add_one_overflow :
  forall n,
    0 <= Value n <= maxUint64 ->
    match Kind n with
    | MinNumber | MaxNumber => Number_add n 1 = n
    | Negative => Number_Less n (Number_add n 1) = true
    | Positive =>
        if Value n =? maxUint64
        then Number_add n 1 = mkNumber Positive 0 (Decimal n)
             /\ Number_Less (Number_add n 1) n = true
        else Number_Less n (Number_add n 1) = true
    end.
Proof.
  intros [k v d] Hv. destruct int64_bounds as (_ & _ & _ & E4).
  rewrite E4 in *. cbn [Kind Value Decimal] in *.
  destruct k; unfold Number_add, Number_Less, to_uint64;
    cbn [Kind Value Decimal NumberKind_eqb andb negb]; try reflexivity.
  - destruct (Z.eqb_spec v 18446744073709551615) as [->|N].
    + split; reflexivity.
    + rewrite Z.mod_small by lia. apply Z.ltb_lt. lia.
  - destruct (Z.leb_spec v 1); cbn [Kind Value Decimal NumberKind_eqb andb negb];
      [reflexivity|].
    rewrite Z.mod_small by lia. rewrite Z.gtb_ltb. apply Z.ltb_lt. lia.
Qed.


Lemma Number_add_one_overflow_witness :
  Number_add (FromUint maxUint64) 1 = mkNumber Positive 0 float64.zero
  /\ Number_Less (Number_add (FromUint maxUint64) 1) (FromUint maxUint64) = true.
Proof.
  apply (Number_add_one_overflow (FromUint maxUint64)).
  vm_compute. split; discriminate.
Defined.

(** ** Equality of sets *)

Lemma float64_eqb_sym : forall x y, float64.eqb x y = float64.eqb y x.
Proof.
  intros x y. unfold float64.eqb, SFeqb, SFcompare.
  destruct x as [s1|s1| |s1 m1 e1], y as [s2|s2| |s2 m2 e2];
    try reflexivity; try (destruct s1, s2; reflexivity);
    try (destruct s1; reflexivity); try (destruct s2; reflexivity).
  pose proof (Pos.compare_antisym m1 m2) as A. unfold Pos.compare in A.
  destruct s1, s2; try reflexivity;
    rewrite (Z.compare_antisym e1 e2); destruct (e1 ?= e2); simpl; try reflexivity;
    rewrite A; destruct (Pos.compare_cont Eq m1 m2); reflexivity.
Qed.

(** Two floats that [==] makes equal are two zeros or the same float. *)
Lemma float64_eqb_true :
  forall x y,
    float64.eqb x y = true ->
    (exists s1 s2, x = S754_zero s1 /\ y = S754_zero s2) \/ x = y.
Proof.
  intros x y. unfold float64.eqb, SFeqb, SFcompare.
  destruct x as [s1|s1| |s1 m1 e1], y as [s2|s2| |s2 m2 e2];
    try discriminate;
    try (destruct s1; discriminate); try (destruct s2; discriminate).
  - intros _. left. now exists s1, s2.
  - destruct s1, s2; try discriminate; intros _; now right.
  - destruct s1, s2; try discriminate;
      destruct (e1 ?= e2) eqn:E; try discriminate;
      destruct (Pos.compare_cont Eq m1 m2) eqn:M; try discriminate;
      intros _; right;
      apply Z.compare_eq in E; apply Pos.compare_eq in M; now subst.
Qed.

Lemma float64_eqb_trans :
  forall x y z,
    float64.eqb x y = true -> float64.eqb y z = true -> float64.eqb x z = true.
Proof.
  intros x y z H1 H2.
  destruct (float64_eqb_true _ _ H1) as [(s1 & s2 & -> & ->)| ->];
    destruct (float64_eqb_true _ _ H2) as [(s3 & s4 & E3 & E4)|E]; subst;
    try assumption; try reflexivity.
Qed.

Lemma NumberKind_eqb_eq : forall a b, NumberKind_eqb a b = true <-> a = b.
Proof. intros [] []; simpl; split; congruence. Qed.

Lemma Number_Equal_sym : forall n m, Number_Equal n m = Number_Equal m n.
Proof.
  intros n m. unfold Number_Equal.
  rewrite (float64_eqb_sym (Decimal n)), (Z.eqb_sym (Value n)).
  destruct (Kind n), (Kind m); reflexivity.
Qed.

Lemma Number_Equal_trans :
  forall a b c,
    Number_Equal a b = true -> Number_Equal b c = true -> Number_Equal a c = true.
Proof.
  intros a b c. unfold Number_Equal. rewrite !andb_true_iff.
  rewrite !NumberKind_eqb_eq, !Z.eqb_eq.
  intros [[K1 V1] D1] [[K2 V2] D2].
  repeat split; try congruence. eapply float64_eqb_trans; eassumption.
Qed.

Lemma YangRange_Equal_loop_Forall2 :
  forall r q,
    List.length r = List.length q ->
    (YangRange_Equal_loop r q = true <->
     Forall2 (fun a b => YRange_eqb a b = true) r q).
Proof.
  induction r as [|a r IH]; intros [|b q] L; simpl in *; try discriminate.
  - split; constructor.
  - injection L as L. destruct (YRange_eqb a b) eqn:E; simpl.
    + rewrite (IH q L). split; [now constructor | now inversion 1].
    + split; [discriminate | inversion 1; congruence].
Qed.

Lemma YangRange_Equal_Forall2 :
  forall r q,
    YangRange_Equal r q = true <-> Forall2 (fun a b => YRange_eqb a b = true) r q.
Proof.
  intros r q. unfold YangRange_Equal.
  destruct (Nat.eqb_spec (List.length r) (List.length q)) as [L|N]; simpl.
  - now apply YangRange_Equal_loop_Forall2.
  - split; [discriminate|]. intros F. apply Forall2_length in F. contradiction.
Qed.

(** X7: [Equal] on interval sets compares the sets member by member; it is
    symmetric and transitive, and a set is Equal to itself as soon as none of
    its bounds has a NaN as Decimal component. *)
Theorem YangRange_Equal_equivalence :
  (forall r q, YangRange_Equal r q = YangRange_Equal q r)
  /\ (forall r q t,
         YangRange_Equal r q = true -> YangRange_Equal q t = true ->
         YangRange_Equal r t = true)
  /\ (forall r,
         Forall (fun a => Decimal (Min a) <> S754_nan /\ Decimal (Max a) <> S754_nan) r ->
         YangRange_Equal r r = true).
Proof.
  split; [|split].
  - assert (S : forall r q, YangRange_Equal r q = true -> YangRange_Equal q r = true).
    { intros r q H. apply YangRange_Equal_Forall2 in H. apply YangRange_Equal_Forall2.
      induction H as [|a b r q E _ IH]; constructor; [|exact IH].
      unfold YRange_eqb in *. now rewrite (Number_Equal_sym (Min b)), (Number_Equal_sym (Max b)). }
    intros r q. destruct (YangRange_Equal r q) eqn:E1, (YangRange_Equal q r) eqn:E2;
      try reflexivity.
    + apply S in E1. congruence.
    + apply S in E2. congruence.
  - intros r q t H1 H2. apply YangRange_Equal_Forall2 in H1, H2.
    apply YangRange_Equal_Forall2. revert t H2.
    induction H1 as [|a b r q E _ IH]; intros t H2; inversion H2; subst;
      constructor; [|now apply IH].
    unfold YRange_eqb in *. rewrite andb_true_iff in *.
    split; eapply Number_Equal_trans; try apply E;
      match goal with H : _ /\ _ |- _ => apply H end.
  - intros r F. apply YangRange_Equal_Forall2.
    induction F as [|a r [N1 N2] _ IH]; constructor; [|exact IH].
    assert (R : forall n, Decimal n <> S754_nan -> Number_Equal n n = true).
    { intros [k v d] N. simpl in N. unfold Number_Equal; simpl. rewrite Z.eqb_refl.
      replace (NumberKind_eqb k k) with true by (now destruct k). simpl.
      destruct d as [s|s| |s m e]; try congruence; unfold float64.eqb, SFeqb; simpl;
        destruct s; try reflexivity;
        rewrite Z.compare_refl, Pos.compare_cont_refl; reflexivity. }
    unfold YRange_eqb. now rewrite !R.
Qed.

Lemma YangRange_Equal_equivalence_witness :
  YangRange_Equal [range_of 1 5] [range_of 1 5] = true.
Proof.
  apply (proj2 (proj2 YangRange_Equal_equivalence)).
  repeat constructor; discriminate.
Defined.

(** ** Containment *)

Lemma Number_Less_from_max :
  forall n m, Kind n = MaxNumber -> Number_Less n m = false.
Proof.
  intros [kn vn dn] [km vm dm]; simpl. intros ->.
  unfold Number_Less; simpl. destruct km; reflexivity.
Qed.

Lemma Number_Less_to_min :
  forall n m, Kind m = MinNumber -> Number_Less n m = false.
Proof.
  intros [kn vn dn] [km vm dm]; simpl. intros ->. reflexivity.
Qed.

(** X8: a base whose first interval runs from the min sentinel to the max
    sentinel contains every set. *)
Theorem Contains_unbounded_base :
  forall (lo hi : Number) (rest s : YangRange),
    Kind lo = MinNumber ->
    Kind hi = MaxNumber ->
    Contains (mkYRange lo hi :: rest) s = true.
Proof.
  intros lo hi rest s Hlo Hhi. unfold Contains.
  destruct s as [|s0 s']; [reflexivity|].
  generalize (s0 :: s'). clear s0 s'. intros s.
  induction s as [|ss s IH]; [reflexivity|].
  cbn [Contains_loop]. unfold Contains_locate.
  assert (A : Contains_advance rest (mkYRange lo hi) (Min ss)
              = Some (mkYRange lo hi, rest)).
  { destruct rest; simpl; now rewrite (Number_Less_from_max hi _ Hhi). }
  rewrite A.
  replace (if negb (NumberKind_eqb (Kind (Min ss)) MinNumber)
           then Some (mkYRange lo hi, rest) else Some (mkYRange lo hi, rest))
    with (Some (mkYRange lo hi, rest)) by (now destruct (negb _)).
  simpl Min. simpl Max.
  rewrite (Number_Less_to_min (Min ss) lo Hlo), (Number_Less_from_max hi _ Hhi).
  simpl. rewrite IH. now destruct (_ || _).
Qed.

Lemma Contains_unbounded_base_witness :
  Contains [mkYRange minNumber maxNumber] [range_of (-5) 7; range_of 9 12] = true.
Proof.
  apply Contains_unbounded_base; reflexivity.
Defined.

Lemma Contains_advance_incl :
  forall rest rr m rr' rest',
    Contains_advance rest rr m = Some (rr', rest') ->
    incl (rr' :: rest') (rr :: rest).
Proof.
  induction rest as [|r1 rest IH]; intros rr m rr' rest' H; simpl in H.
  - destruct (Number_Less (Max rr) m); [discriminate|].
    injection H as <- <-. apply incl_refl.
  - destruct (Number_Less (Max rr) m).
    + apply incl_tl. eapply IH; eassumption.
    + injection H as <- <-. apply incl_refl.
Qed.

Lemma Contains_loop_sound :
  forall s rr rest,
    Contains_loop s rr rest = true ->
    Forall (fun ss =>
              unbounded_edge ss = true
              \/ Exists (fun r => within ss r /\ Number_Less (Max r) (Min ss) = false)
                   (rr :: rest)) s.
Proof.
  induction s as [|ss s IH]; intros rr rest H; [constructor|].
  cbn [Contains_loop] in H.
  destruct (Contains_locate ss rr rest) as [[rr' rest']|] eqn:L; [|discriminate].
  assert (I : incl (rr' :: rest') (rr :: rest)).
  { unfold Contains_locate in L. destruct (negb _).
    - eapply Contains_advance_incl; eassumption.
    - injection L as <- <-. apply incl_refl. }
  fold (unbounded_edge ss) in H.
  assert (T : Forall (fun ss0 =>
              unbounded_edge ss0 = true
              \/ Exists (fun r => within ss0 r /\ Number_Less (Max r) (Min ss0) = false)
                   (rr :: rest)) s).
  { assert (H' : Contains_loop s rr' rest' = true).
    { destruct (unbounded_edge ss); [exact H|].
      destruct (_ || _); [discriminate | exact H]. }
    specialize (IH _ _ H'). rewrite Forall_forall in *. intros x Hx.
    destruct (IH x Hx) as [U|E]; [now left | right].
    apply Exists_exists in E. destruct E as (r & Hr & W).
    apply Exists_exists. exists r. split; [now apply I | exact W]. }
  constructor; [|exact T].
  destruct (unbounded_edge ss) eqn:U; [now left | right].
  destruct (_ || _) eqn:C; [discriminate|].
  apply orb_false_iff in C. destruct C as [C1 C2].
  apply Exists_exists. exists rr'. split; [apply I; now left|].
  split; [split; assumption|].
  unfold unbounded_edge in U. apply orb_false_iff in U. destruct U as [_ U].
  unfold Contains_locate in L. rewrite U in L. simpl in L.
  now destruct (Contains_advance_located _ _ _ _ _ L).
Qed.

(** X9: when [Contains r s] holds for a non-empty base, every interval of s
    that has neither the max sentinel as high nor the min sentinel as low
    lies inside one interval of r: its low is not below that interval's low
    and its high not above that interval's high. *)
Theorem Contains_sound :
  forall r s,
    r <> [] ->
    Contains r s = true ->
    Forall (fun ss => unbounded_edge ss = false -> Exists (within ss) r) s.
Proof.
  intros r s N H. destruct r as [|rr rest]; [congruence|].
  destruct s as [|s0 s']; [constructor|].
  change (Contains_loop (s0 :: s') rr rest = true) in H.
  apply Contains_loop_sound in H.
  rewrite Forall_forall in *. intros ss Hs U.
  destruct (H ss Hs) as [U'|E]; [congruence|].
  apply Exists_exists in E. destruct E as (x & Hx & W & _).
  apply Exists_exists. now exists x.
Qed.

Lemma Contains_sound_witness :
  Forall (fun ss => unbounded_edge ss = false ->
                    Exists (within ss) [range_of 0 255])
    [range_of 10 20].
Proof.
  apply Contains_sound; [discriminate | reflexivity].
Defined.

Lemma Contains_loop_chain :
  forall l prev,
    Forall (fun a => YRange_Valid a = true) l ->
    neighbours apart (prev :: l) ->
    Contains_loop l prev l = true.
Proof.
  induction l as [|b l IH]; intros prev V N; [reflexivity|].
  inversion V as [|? ? Vb Vl]; subst.
  cbn [neighbours] in N. destruct N as [A N]. unfold apart in A.
  cbn [Contains_loop]. unfold Contains_locate.
  assert (K : NumberKind_eqb (Kind (Min b)) MinNumber = false).
  { destruct (NumberKind_eqb (Kind (Min b)) MinNumber) eqn:K; [|reflexivity].
    apply NumberKind_eqb_eq in K.
    rewrite (Number_Less_to_min _ _ K) in A. discriminate. }
  rewrite K. cbn [negb Contains_advance]. rewrite A.
  unfold YRange_Valid in Vb. apply negb_true_iff in Vb.
  assert (S : Contains_advance l b (Min b) = Some (b, l)).
  { destruct l; simpl; now rewrite Vb. }
  rewrite S, !Number_Less_irrefl, orb_false_r. simpl.
  rewrite (IH b Vl N).
  destruct (NumberKind_eqb (Kind (Max b)) MaxNumber); reflexivity.
Qed.

(** X10: a set of valid intervals in which each interval starts after the
    end of the one before contains itself. *)
Theorem Contains_reflexive :
  forall r, disjoint r -> Contains r r = true.
Proof.
  intros [|a l] [V N]; [reflexivity|].
  inversion V as [|? ? Va Vl]; subst.
  unfold Contains. cbn [Contains_loop]. unfold Contains_locate.
  unfold YRange_Valid in Va. apply negb_true_iff in Va.
  assert (S : Contains_advance l a (Min a) = Some (a, l)).
  { destruct l; simpl; now rewrite Va. }
  rewrite S.
  destruct (negb (NumberKind_eqb (Kind (Min a)) MinNumber));
    rewrite !Number_Less_irrefl, (Contains_loop_chain l a Vl N);
    destruct (NumberKind_eqb (Kind (Max a)) MaxNumber
              || NumberKind_eqb (Kind (Min a)) MinNumber); reflexivity.
Qed.

Lemma Contains_reflexive_witness :
  Contains [range_of 1 5; range_of 7 10] [range_of 1 5; range_of 7 10] = true.
Proof.
  apply Contains_reflexive. split.
  - repeat constructor.
  - simpl. repeat split.
Defined.

(** ** Coalescing *)

Lemma coalesce_loop_length :
  forall rest cur,
    (List.length (coalesce_loop cur rest) <= S (List.length rest))%nat.
Proof.
  induction rest as [|r1 rest IH]; intros cur; simpl; [lia|].
  destruct (Number_Less (Number_add (Max cur) 1) (Min r1)); simpl.
  - specialize (IH r1). lia.
  - destruct (Number_Less (Max cur) (Max r1)).
    + specialize (IH (mkYRange (Min cur) (Max r1))). lia.
    + specialize (IH cur). lia.
Qed.

Lemma coalesce_loop_gap :
  forall rest cur, neighbours gap (coalesce_loop cur rest).
Proof.
  induction rest as [|r1 rest IH]; intros cur; simpl; [exact I|].
  destruct (Number_Less (Number_add (Max cur) 1) (Min r1)) eqn:G.
  - destruct (coalesce_loop_fixed rest r1) as (c & l & E & M & _).
    specialize (IH r1). rewrite E in *. split; [|exact IH].
    unfold gap. now rewrite M.
  - destruct (Number_Less (Max cur) (Max r1)); apply IH.
Qed.

Lemma coalesce_loop_valid :
  forall rest cur,
    Forall (fun a => YRange_Valid a = true) (cur :: rest) ->
    Forall (fun a => YRange_Valid a = true) (coalesce_loop cur rest).
Proof.
  induction rest as [|r1 rest IH]; intros cur V; simpl; [exact V|].
  inversion V as [|? ? Vc V1]; subst. inversion V1 as [|? ? Vr Vs]; subst.
  destruct (Number_Less (Number_add (Max cur) 1) (Min r1)).
  - constructor; [exact Vc | now apply IH].
  - destruct (Number_Less (Max cur) (Max r1)) eqn:L.
    + apply IH. constructor; [|exact Vs].
      unfold YRange_Valid in *. simpl. apply negb_true_iff in Vc.
      apply negb_true_iff. order_facts. apply Number_Less_false_iff. lia.
    + apply IH. now constructor.
Qed.

(** Every bound of the output is a bound of the input. *)
Lemma coalesce_loop_bounds :
  forall rest cur,
    Forall (fun c =>
              Exists (fun a => Min c = Min a) (cur :: rest)
              /\ Exists (fun b => Max c = Max b) (cur :: rest))
      (coalesce_loop cur rest).
Proof.
  induction rest as [|r1 rest IH]; intros cur; simpl.
  - repeat constructor.
  - destruct (Number_Less (Number_add (Max cur) 1) (Min r1)).
    + constructor; [split; now left|].
      eapply Forall_impl; [|apply IH].
      intros c [H1 H2]. split; now right.
    + destruct (Number_Less (Max cur) (Max r1)).
      * eapply Forall_impl; [|apply IH].
        intros c [H1 H2]. split.
        -- inversion H1; subst; [now left | now right; right].
        -- inversion H2; subst; [right; now left | now right; right].
      * eapply Forall_impl; [|apply IH].
        intros c [H1 H2]. split.
        -- inversion H1; subst; [now left | now right; right].
        -- inversion H2; subst; [now left | now right; right].
Qed.

Lemma coalesce_nonempty : forall r, r <> [] -> coalesce r <> [].
Proof.
  intros [|r0 [|r1 rest]] N; try exact N.
  change (coalesce (r0 :: r1 :: rest)) with (coalesce_loop r0 (r1 :: rest)).
  destruct (coalesce_loop_fixed (r1 :: rest) r0) as (c & l & E & _).
  rewrite E. discriminate.
Qed.

Lemma coalesce_gap : forall r, neighbours gap (coalesce r).
Proof.
  intros [|r0 [|r1 rest]]; try exact I. apply coalesce_loop_gap.
Qed.

Lemma coalesce_bounds :
  forall r,
    Forall (fun c =>
              Exists (fun a => Min c = Min a) r
              /\ Exists (fun b => Max c = Max b) r) (coalesce r).
Proof.
  intros [|r0 [|r1 rest]].
  - constructor.
  - repeat constructor.
  - apply coalesce_loop_bounds.
Qed.

Lemma coalesce_valid :
  forall r,
    Forall (fun a => YRange_Valid a = true) r ->
    Forall (fun a => YRange_Valid a = true) (coalesce r).
Proof.
  intros [|r0 [|r1 rest]] V; try exact V. now apply coalesce_loop_valid.
Qed.

(** X11: what [coalesce] keeps: a non-empty set stays non-empty and gets no
    longer; in the result every interval starts more than one past the end of
    the one before, as the loop measures it; every low and every high of
    the result is a low, respectively a high, of the input; and valid
    intervals give valid intervals. *)
Theorem coalesce_invariants :
  forall r,
    (r <> [] -> coalesce r <> [])
    /\ (List.length (coalesce r) <= List.length r)%nat
    /\ neighbours gap (coalesce r)
    /\ Forall (fun c =>
                 Exists (fun a => Min c = Min a) r
                 /\ Exists (fun b => Max c = Max b) r) (coalesce r)
    /\ (Forall (fun a => YRange_Valid a = true) r ->
        Forall (fun a => YRange_Valid a = true) (coalesce r)).
Proof.
  intros r. split; [apply coalesce_nonempty|].
  split; [|split; [apply coalesce_gap|split; [apply coalesce_bounds|apply coalesce_valid]]].
  destruct r as [|r0 [|r1 rest]]; simpl; try lia.
  apply (coalesce_loop_length (r1 :: rest) r0).
Qed.

Lemma coalesce_invariants_witness :
  Forall (fun a => YRange_Valid a = true)
    (coalesce [range_of 1 5; range_of 6 10; range_of 20 30]).
Proof.
  apply (proj2 (proj2 (proj2 (proj2
           (coalesce_invariants [range_of 1 5; range_of 6 10; range_of 20 30]))))).
  repeat constructor.
Defined.

Lemma ascending_sorted_by_low : forall r, ascending r -> sorted_by_low r.
Proof.
  unfold ascending, sorted_by_low. intros r A.
  induction A as [|a l A IH F]; constructor; [exact IH|].
  eapply Forall_impl; [|exact F]. intros b H. simpl in H.
  unfold YangRange_Less in H.
  destruct (Number_Less (Min b) (Min a)); [discriminate | reflexivity].
Qed.

Lemma in_range_widen :
  forall x a b,
    in_range x a \/ in_range x b ->
    Number_Less (Min b) (Min a) = false ->
    in_range x (mkYRange (Min a)
                  (if Number_Less (Max a) (Max b) then Max b else Max a)).
Proof.
  intros x a b H S. unfold in_range in *. simpl.
  destruct (Number_Less (Max a) (Max b)) eqn:L;
    destruct H as [[H1 H2]|[H1 H2]]; order_facts;
    split; apply Number_Less_false_iff; lia.
Qed.

Lemma coalesce_loop_covers :
  forall rest cur x,
    sorted_by_low (cur :: rest) ->
    in_set x (cur :: rest) ->
    in_set x (coalesce_loop cur rest).
Proof.
  unfold in_set, sorted_by_low.
  induction rest as [|r1 rest IH]; intros cur x S H; simpl; [exact H|].
  inversion S as [|? ? S1 F]; subst. inversion F as [|? ? F1 Fr]; subst.
  inversion S1 as [|? ? Sr Fr1]; subst.
  destruct (Number_Less (Number_add (Max cur) 1) (Min r1)).
  - inversion H; subst; [now left | right; now apply IH].
  - assert (W : forall c,
               Min c = Min cur ->
               (in_range x cur \/ in_range x r1 -> in_range x c) ->
               Exists (in_range x) (coalesce_loop c rest)).
    { intros c Mc Hc. apply IH.
      - constructor; [exact Sr|]. rewrite Mc. exact Fr.
      - inversion H as [? ? H1|? ? H1]; subst; [left; auto|].
        inversion H1; subst; [left; auto | now right]. }
    pose proof (in_range_widen x cur r1) as Wd.
    destruct (Number_Less (Max cur) (Max r1)).
    + apply W; [reflexivity|]. intros Hx. now apply Wd.
    + apply W; [reflexivity|]. intros Hx. specialize (Wd Hx F1).
      now destruct cur.
Qed.

(** X12: on a set sorted by low bound [coalesce] loses nothing: a Number
    that lies in some interval of the set lies in some interval of the
    result. *)
Theorem coalesce_covers :
  forall r x,
    sorted_by_low r ->
    in_set x r ->
    in_set x (coalesce r).
Proof.
  intros [|r0 [|r1 rest]] x S H; try exact H.
  now apply coalesce_loop_covers.
Qed.

Lemma coalesce_covers_witness :
  in_set (FromInt 6) (coalesce [range_of 1 5; range_of 6 10]).
Proof.
  apply coalesce_covers.
  - apply ascending_sorted_by_low.
    change [range_of 1 5; range_of 6 10]
      with (sort_Sort [range_of 1 5; range_of 6 10]).
    apply sort_Sort_ascending.
  - right. left. split; reflexivity.
Defined.

(** ** Validation *)

Lemma Validate_fst : forall r, fst (Validate r) = sort_Sort r.
Proof.
  intros r. unfold Validate. destruct (sort_Sort r) as [|r0 rest]; [reflexivity|].
  destruct (negb (YRange_Valid r0)); reflexivity.
Qed.

(** X13: a second call of [Validate] on the set the first call left behind
    changes nothing and returns what the first call returned. *)
Theorem Validate_idempotent :
  forall r, Validate (fst (Validate r)) = Validate r.
Proof.
  intros r. rewrite Validate_fst. unfold Validate.
  now rewrite (sort_Sort_sorted _ (sort_Sort_ascending r)).
Qed.

(** ** What ParseRanges returns *)

Lemma Split_from_nonempty :
  forall sep s skip cur, strings.Split_from sep s skip cur <> [].
Proof.
  intros sep s. induction s as [|c r IH]; intros skip cur;
    cbn [strings.Split_from]; [discriminate|].
  destruct skip; [|apply IH].
  destruct (prefix sep (String c r)); [discriminate | apply IH].
Qed.

Lemma ParseRanges_member_ok :
  forall s r,
    ParseRanges_member s = (r, None) ->
    YRange_Valid r = true /\ constructible (Min r) /\ constructible (Max r).
Proof.
  intros s r. unfold ParseRanges_member.
  destruct (ParseNumber (hd "" (strings.Split s ".."))) as [mn [e|]] eqn:P0;
    [discriminate|].
  assert (Cmn : constructible mn) by (eapply constructible_ParseNumber; eassumption).
  assert (Fin : forall mx,
             constructible mx ->
             (if Number_Less mx mn
              then (mkYRange Number_zero Number_zero,
                    Some (ErrLessThan (Number_String mx) (Number_String mn)))
              else (mkYRange mn mx, None)) = (r, None) ->
             YRange_Valid r = true /\ constructible (Min r) /\ constructible (Max r)).
  { intros mx Cmx H. destruct (Number_Less mx mn) eqn:L; [discriminate|].
    inversion H; subst. unfold YRange_Valid. simpl. now rewrite L. }
  destruct (strings.Split s "..") as [|p0 [|p1 [|p2 ps]]]; try discriminate.
  - now apply Fin.
  - destruct (ParseNumber p1) as [mx [e|]] eqn:P1; [discriminate|].
    apply Fin. eapply constructible_ParseNumber; eassumption.
Qed.

Lemma ParseRanges_members_ok :
  forall parts rs,
    ParseRanges_members parts = (rs, None) ->
    List.length rs = List.length parts
    /\ Forall (fun r => YRange_Valid r = true
                        /\ constructible (Min r) /\ constructible (Max r)) rs.
Proof.
  induction parts as [|s parts IH]; intros rs H; simpl in H.
  - inversion H; subst. split; [reflexivity | constructor].
  - destruct (ParseRanges_member s) as [r [e|]] eqn:M; [discriminate|].
    destruct (ParseRanges_members parts) as [rs' [e|]]; [discriminate|].
    inversion H; subst. destruct (IH rs' eq_refl) as [L F].
    split; [simpl; now rewrite L|].
    constructor; [now apply ParseRanges_member_ok with s | exact F].
Qed.

Lemma coalesce_loop_low :
  forall (P : Number -> Prop) rest cur,
    Forall (fun a => P (Min a)) (cur :: rest) ->
    Forall (fun c => P (Min c)) (coalesce_loop cur rest).
Proof.
  intros P rest cur F.
  eapply Forall_impl; [|apply coalesce_loop_bounds].
  intros c [E _]. apply Exists_exists in E. destruct E as (a & Ia & Ea).
  rewrite Ea. rewrite Forall_forall in F. exact (F a Ia).
Qed.

Lemma coalesce_loop_sorted :
  forall rest cur,
    sorted_by_low (cur :: rest) -> sorted_by_low (coalesce_loop cur rest).
Proof.
  unfold sorted_by_low.
  induction rest as [|r1 rest IH]; intros cur S; simpl; [exact S|].
  inversion S as [|? ? S1 F]; subst. inversion F as [|? ? F1 Fr]; subst.
  inversion S1 as [|? ? Sr Fr1]; subst.
  destruct (Number_Less (Number_add (Max cur) 1) (Min r1)).
  - constructor; [now apply IH|].
    apply (coalesce_loop_low (fun m => Number_Less m (Min cur) = false)). exact F.
  - destruct (Number_Less (Max cur) (Max r1)); apply IH; now constructor.
Qed.

Lemma coalesce_sorted : forall r, sorted_by_low r -> sorted_by_low (coalesce r).
Proof.
  intros [|r0 [|r1 rest]] S; try exact S. now apply coalesce_loop_sorted.
Qed.

(** An interval that starts more than one past the end of another starts
    after its end, unless that end is the Positive Number 2^64-1, where the
    increment wraps round. *)
Lemma gap_apart :
  forall a b,
    0 <= Value (Max a) <= maxUint64 ->
    ~ (Kind (Max a) = Positive /\ Value (Max a) = maxUint64) ->
    gap a b -> apart a b.
Proof.
  intros a b R W G. unfold gap, apart in *.
  destruct (Number_add_one_step (Max a) R W) as [C|C].
  - now rewrite C in G.
  - order_facts. apply Number_Less_iff. lia.
Qed.

Lemma neighbours_impl :
  forall (R Q : YRange -> YRange -> Prop) (P : YRange -> Prop) l,
    (forall a b, P a -> R a b -> Q a b) ->
    Forall P l -> neighbours R l -> neighbours Q l.
Proof.
  intros R Q P l H. induction l as [|a [|b l] IH]; intros F N; simpl; auto.
  simpl in N. destruct N as [Rab N]. inversion F; subst.
  split; [now apply H | now apply IH].
Qed.

Lemma ParseRanges_result_facts :
  forall s r,
    ParseRanges s = (r, None) ->
    r <> []
    /\ Forall (fun a => YRange_Valid a = true
                        /\ constructible (Min a) /\ constructible (Max a)) r
    /\ sorted_by_low r
    /\ neighbours gap r
    /\ coalesce r = r
    /\ (Forall (fun a => ~ (Kind (Max a) = Positive /\ Value (Max a) = maxUint64)) r ->
        disjoint r).
Proof.
  intros s r H. unfold ParseRanges in H.
  destruct (ParseRanges_members (strings.Split s "|")) as [rs [e|]] eqn:M;
    [discriminate|].
  destruct (Validate rs) as [rs' [e|]] eqn:V; [discriminate|].
  inversion H; subst r. clear H.
  destruct (ParseRanges_members_ok _ _ M) as [L F].
  assert (E : rs' = sort_Sort rs).
  { rewrite <- (Validate_fst rs), V. reflexivity. }
  assert (F' : Forall (fun a => YRange_Valid a = true
                        /\ constructible (Min a) /\ constructible (Max a)) rs').
  { subst rs'. eapply Permutation_Forall; [apply sort_Sort_perm | exact F]. }
  assert (N : rs' <> []).
  { intros ->. pose proof (Permutation_length (sort_Sort_perm rs)) as PL.
    rewrite <- E, L in PL. unfold strings.Split in PL.
    destruct (strings.Split_from "|" s 0 "") eqn:S; [|discriminate].
    now apply Split_from_nonempty in S. }
  pose proof (coalesce_nonempty rs') as I1. pose proof (coalesce_gap rs') as I3.
  pose proof (coalesce_bounds rs') as I4. pose proof (coalesce_valid rs') as I5.
  assert (Fc : Forall (fun a => YRange_Valid a = true
                        /\ constructible (Min a) /\ constructible (Max a))
                 (coalesce rs')).
  { assert (Vc : Forall (fun a => YRange_Valid a = true) (coalesce rs')).
    { apply I5. eapply Forall_impl; [|exact F']. intros a Ha; apply Ha. }
    rewrite Forall_forall in *. intros c Hc.
    destruct (I4 c Hc) as [E1 E2].
    apply Exists_exists in E1, E2.
    destruct E1 as (a & Ia & Ea), E2 as (b & Ib & Eb).
    rewrite Ea, Eb. repeat split; [now apply Vc | now apply F' | now apply F']. }
  split; [now apply I1|]. split; [exact Fc|].
  split; [apply coalesce_sorted, ascending_sorted_by_low; subst rs';
          apply sort_Sort_ascending|].
  split; [exact I3|]. split; [apply coalesce_idempotent|].
  intros W. split; [eapply Forall_impl; [|exact Fc]; intros a Ha; apply Ha|].
  apply (neighbours_impl gap apart
           (fun a => 0 <= Value (Max a) <= maxUint64
                     /\ ~ (Kind (Max a) = Positive /\ Value (Max a) = maxUint64)));
    [intros a b [R Wa]; now apply gap_apart | | exact I3].
  rewrite Forall_forall in *. intros a Ha. split; [|now apply W].
  apply constructible_range. now apply Fc.
Qed.

(** X14: a set that [ParseRanges] returns is not empty; its intervals are
    valid and their bounds are constructible Numbers; it is sorted by low
    bound; each interval starts more than one past the end of the one before,
    so that coalescing it changes nothing; and, if no interval ends at the
    Positive Number 2^64-1, each interval starts after the end of the one
    before. *)
Theorem ParseRanges_result :
  forall s r,
    ParseRanges s = (r, None) ->
    r <> []
    /\ Forall (fun a => YRange_Valid a = true
                        /\ constructible (Min a) /\ constructible (Max a)) r
    /\ sorted_by_low r
    /\ neighbours gap r
    /\ coalesce r = r
    /\ (Forall (fun a => ~ (Kind (Max a) = Positive /\ Value (Max a) = maxUint64)) r ->
        disjoint r).
Proof.
  intros s r H. apply (ParseRanges_result_facts s). exact H.
Qed.

Lemma ParseRanges_result_witness :
  fst (ParseRanges "7..10| 1..5") <> [].
Proof.
  apply (ParseRanges_result "7..10| 1..5" [range_of 1 5; range_of 7 10]).
  vm_compute. reflexivity.
Defined.

(** ** Rendering and reading back *)

Lemma prefix_nil : forall s, prefix "" s = true.
Proof. intros [|c r]; reflexivity. Qed.

Lemma lacks_app :
  forall c a b, lacks c (a ++ b) = lacks c a && lacks c b.
Proof.
  intros c. induction a as [|x a IH]; intros b; simpl; [reflexivity|].
  now rewrite IH, andb_assoc.
Qed.

Lemma rev_rev_append :
  forall a cur,
    strings.rev (strings.rev_append a cur) = (strings.rev cur ++ a)%string.
Proof.
  intros a cur. now rewrite rev_append_rev, rev_app, rev_involutive.
Qed.

(** Reading a piece in which the first byte of the separator does not
    occur. *)
Lemma Split_from_lacks :
  forall c sep' a rest cur,
    lacks c a = true ->
    strings.Split_from (String c sep') (a ++ rest) 0 cur
    = strings.Split_from (String c sep') rest 0 (strings.rev_append a cur).
Proof.
  intros c sep'. induction a as [|x a IH]; intros rest cur L; [reflexivity|].
  cbn [lacks] in L. apply andb_true_iff in L. destruct L as [Lx La].
  cbn [append strings.Split_from prefix strings.rev_append].
  destruct (ascii_dec c x) as [->|N].
  - rewrite Ascii.eqb_refl in Lx. discriminate.
  - now apply IH.
Qed.

Lemma Split_lacks :
  forall c sep' a,
    lacks c a = true -> strings.Split a (String c sep') = [a].
Proof.
  intros c sep' a L. unfold strings.Split.
  rewrite <- (append_nil_r a) at 1. rewrite (Split_from_lacks c sep' a "" "" L).
  cbn [strings.Split_from]. now rewrite rev_rev_append.
Qed.

Lemma Split_dotdot :
  forall a b,
    lacks "." a = true -> lacks "." b = true ->
    strings.Split (a ++ ".." ++ b) ".." = [a; b].
Proof.
  intros a b La Lb. unfold strings.Split.
  rewrite (Split_from_lacks "." "." a _ "" La).
  change (".." ++ b)%string with (String "." (String "." b)).
  cbn [strings.Split_from]. 
  replace (prefix ".." (String "." (String "." b))) with true
    by (cbn; now rewrite prefix_nil).
  cbn [String.length Nat.pred strings.Split_from].
  rewrite rev_rev_append. cbn [strings.rev strings.rev_append append].
  f_equal. apply (Split_lacks "." "." b Lb).
Qed.

Lemma Split_Join_bar :
  forall ms m cur,
    Forall (fun x => lacks "|" x = true) (m :: ms) ->
    strings.Split_from "|" (strings_Join (m :: ms) "|") 0 cur
    = (strings.rev cur ++ m)%string :: ms.
Proof.
  induction ms as [|m' ms IH]; intros m cur F; inversion F as [|? ? Lm F']; subst.
  - cbn [strings_Join]. rewrite <- (append_nil_r m) at 1.
    rewrite (Split_from_lacks "|" "" m "" cur Lm).
    cbn [strings.Split_from]. now rewrite rev_rev_append.
  - change (strings_Join (m :: m' :: ms) "|")
      with (m ++ String "|" (strings_Join (m' :: ms) "|"))%string.
    rewrite (Split_from_lacks "|" "" m _ cur Lm).
    cbn [strings.Split_from].
    replace (prefix "|" (String "|" (strings_Join (m' :: ms) "|"))) with true
      by (cbn; now rewrite prefix_nil).
    cbn [String.length Nat.pred]. rewrite rev_rev_append, (IH m' "" F').
    reflexivity.
Qed.

Lemma FormatUint_digits_all :
  forall fuel v acc,
    digits_only acc = true ->
    digits_only (strconv.FormatUint_digits fuel v acc) = true.
Proof.
  induction fuel as [|f IH]; intros v acc D; [exact D|].
  cbn [strconv.FormatUint_digits].
  assert (Hd : 0 <= v mod 10 < 10) by (apply Z.mod_pos_bound; lia).
  assert (D' : digits_only (String (ascii_of (48 + v mod 10)) acc) = true).
  { cbn [digits_only]. rewrite byte_of_ascii_of by lia.
    rewrite D, andb_true_r. apply is_digit_bounds. lia. }
  destruct (v <? 10); [exact D' | now apply IH].
Qed.

Lemma digits_lacks :
  forall c s,
    is_digit (byte_of c) = false -> digits_only s = true -> lacks c s = true.
Proof.
  intros c. induction s as [|x s IH]; intros Hc D; [reflexivity|].
  cbn [digits_only] in D. apply andb_true_iff in D. destruct D as [Dx Ds].
  cbn [lacks]. rewrite (IH Hc Ds), andb_true_r.
  destruct (Ascii.eqb_spec x c) as [->|N]; [congruence | reflexivity].
Qed.

(** The rendering of a Number holds neither a point nor a bar. *)
Lemma Number_String_lacks :
  forall n c,
    c = "."%char \/ c = "|"%char -> lacks c (Number_String n) = true.
Proof.
  intros n c Hc.
  assert (D : lacks c (strconv.FormatUint (Value n)) = true).
  { apply digits_lacks; [destruct Hc; subst; reflexivity|].
    now apply FormatUint_digits_all. }
  unfold Number_String. destruct (Kind n); try exact D;
    try (destruct Hc; subst; reflexivity).
  change ("-" ++ strconv.FormatUint (Value n))%string
    with (String "-" (strconv.FormatUint (Value n))).
  cbn [lacks]. rewrite D. destruct Hc; subst; reflexivity.
Qed.

Lemma ParseNumber_String_canonical :
  forall n, canonical n -> ParseNumber (Number_String n) = (n, None).
Proof.
  intros [k v d] (R & D & S). simpl in *. subst d.
  destruct k.
  - apply ParseNumber_String; auto.
  - apply ParseNumber_String; auto.
  - rewrite S by auto. reflexivity.
  - rewrite S by auto. reflexivity.
Qed.

Lemma canonical_Equal :
  forall n m, canonical n -> canonical m -> Number_Equal n m = true -> n = m.
Proof.
  intros [kn vn dn] [km vm dm] (_ & Dn & _) (_ & Dm & _) E. simpl in *.
  unfold Number_Equal in E. simpl in E.
  apply andb_true_iff in E. destruct E as [E _].
  apply andb_true_iff in E. destruct E as [K V].
  apply NumberKind_eqb_eq in K. apply Z.eqb_eq in V. now subst.
Qed.

Lemma ParseRanges_member_String :
  forall r,
    canonical (Min r) -> canonical (Max r) ->
    ParseRanges_member (YRange_String r) =
      if YRange_Valid r then (r, None)
      else (mkYRange Number_zero Number_zero,
            Some (ErrLessThan (Number_String (Max r)) (Number_String (Min r)))).
Proof.
  intros [mn mx] Cn Cx. simpl in Cn, Cx.
  pose proof (Number_String_lacks mn "." (or_introl eq_refl)) as Ln.
  pose proof (Number_String_lacks mx "." (or_introl eq_refl)) as Lx.
  unfold YRange_String, YRange_Valid, ParseRanges_member. cbn [Min Max].
  destruct (Number_Equal mn mx) eqn:E.
  - apply (canonical_Equal _ _ Cn Cx) in E. subst mx.
    rewrite (Split_lacks "." "." _ Ln). cbn [hd].
    rewrite (ParseNumber_String_canonical mn Cn).
    now rewrite Number_Less_irrefl.
  - rewrite (Split_dotdot _ _ Ln Lx). cbn [hd].
    rewrite (ParseNumber_String_canonical mn Cn),
      (ParseNumber_String_canonical mx Cx).
    now destruct (Number_Less mx mn).
Qed.

(** X15: an interval whose bounds carry no fraction is read back from its
    rendering ([low] alone when the bounds are equal, [low..high]
    otherwise) when it is valid, and is refused with the "less than" error
    when its high is below its low. *)
Theorem YRange_String_roundtrip :
  forall r,
    canonical (Min r) -> canonical (Max r) ->
    (YRange_Valid r = true ->
     ParseRanges_member (YRange_String r) = (r, None))
    /\ (YRange_Valid r = false ->
        snd (ParseRanges_member (YRange_String r))
        = Some (ErrLessThan (Number_String (Max r)) (Number_String (Min r)))).
Proof.
  intros r Cn Cx. rewrite (ParseRanges_member_String r Cn Cx).
  split; intros ->; reflexivity.
Qed.

Lemma canonical_FromInt :
  forall i, MinInt64 <= i <= MaxInt64 -> canonical (FromInt i).
Proof.
  intros i Hi. split; [apply constructible_range; now constructor|].
  unfold FromInt. destruct (i <? 0); simpl; split;
    try reflexivity; intros [K|K]; discriminate.
Qed.

Lemma YRange_String_roundtrip_witness :
  ParseRanges_member (YRange_String (range_of (-3) 7)) = (range_of (-3) 7, None).
Proof.
  apply (proj1 (YRange_String_roundtrip (range_of (-3) 7)
                  (canonical_FromInt (-3) ltac:(vm_compute; split; discriminate))
                  (canonical_FromInt 7 ltac:(vm_compute; split; discriminate)))).
  reflexivity.
Defined.

Lemma YRange_String_lacks_bar :
  forall r, lacks "|" (YRange_String r) = true.
Proof.
  intros r. unfold YRange_String.
  pose proof (Number_String_lacks (Min r) "|" (or_intror eq_refl)) as Ln.
  pose proof (Number_String_lacks (Max r) "|" (or_intror eq_refl)) as Lx.
  destruct (Number_Equal (Min r) (Max r)); [exact Ln|].
  now rewrite !lacks_app, Ln, Lx.
Qed.

Lemma ParseRanges_members_String :
  forall r,
    Forall (fun a => canonical (Min a) /\ canonical (Max a)) r ->
    Forall (fun a => YRange_Valid a = true) r ->
    ParseRanges_members (map YRange_String r) = (r, None).
Proof.
  induction r as [|a r IH]; intros C V; [reflexivity|].
  inversion C as [|? ? [Cn Cx] C']; subst. inversion V as [|? ? Va V']; subst.
  cbn [map ParseRanges_members].
  now rewrite (ParseRanges_member_String a Cn Cx), Va, (IH C' V').
Qed.

Lemma disjoint_first :
  forall l a,
    Forall (fun b => YRange_Valid b = true) l ->
    neighbours apart (a :: l) ->
    Forall (fun b => Number_Less (Max a) (Min b) = true) l.
Proof.
  induction l as [|b l IH]; intros a V N; [constructor|].
  inversion V as [|? ? Vb Vl]; subst.
  cbn [neighbours] in N. destruct N as [A N]. unfold apart in A.
  constructor; [exact A|].
  eapply Forall_impl; [|apply (IH b Vl N)].
  intros c Hc. simpl in Hc. unfold YRange_Valid in Vb. apply negb_true_iff in Vb.
  order_facts. apply Number_Less_iff. lia.
Qed.

Lemma disjoint_ascending : forall r, disjoint r -> ascending r.
Proof.
  unfold disjoint, ascending.
  induction r as [|a l IH]; intros [V N]; [constructor|].
  inversion V as [|? ? Va Vl]; subst.
  constructor.
  - apply IH. split; [exact Vl|]. destruct l; [exact I | apply N].
  - eapply Forall_impl; [|apply (disjoint_first l a Vl N)].
    intros b Hb. simpl in Hb. unfold YRange_Valid in Va. apply negb_true_iff in Va.
    unfold YangRange_Less.
    assert (L1 : Number_Less (Min b) (Min a) = false)
      by (order_facts; apply Number_Less_false_iff; lia).
    assert (L2 : Number_Less (Min a) (Min b) = true)
      by (order_facts; apply Number_Less_iff; lia).
    now rewrite L1, L2.
Qed.

Lemma gap_fixed :
  forall l a, neighbours gap (a :: l) -> coalesce_loop a l = a :: l.
Proof.
  induction l as [|b l IH]; intros a N; [reflexivity|].
  cbn [neighbours] in N. destruct N as [G N]. unfold gap in G.
  cbn [coalesce_loop]. now rewrite G, (IH b N).
Qed.

Lemma Validate_disjoint : forall r, disjoint r -> Validate r = (r, None).
Proof.
  intros r D. unfold Validate.
  rewrite (sort_Sort_sorted r (disjoint_ascending r D)).
  destruct r as [|r0 rest]; [reflexivity|].
  destruct D as [V N]. inversion V as [|? ? V0 Vr]; subst.
  rewrite V0. cbn [negb]. f_equal.
  apply Validate_loop_passes.
  eapply Forall_impl; [|apply (disjoint_first rest r0 Vr N)].
  intros b Hb. simpl in Hb. order_facts. apply Number_Less_false_iff. lia.
Qed.

Lemma ParseRanges_String_normal :
  forall r, normal r -> ParseRanges (YangRange_String r) = (r, None).
Proof.
  intros r (Ne & C & D & G). unfold ParseRanges, YangRange_String.
  assert (S : strings.Split (strings_Join (map YRange_String r) "|") "|"
              = map YRange_String r).
  { destruct r as [|a r]; [congruence|]. unfold strings.Split. cbn [map].
    rewrite Split_Join_bar; [reflexivity|].
    change (YRange_String a :: map YRange_String r)
      with (map YRange_String (a :: r)).
    apply Forall_forall. intros x Hx. apply in_map_iff in Hx.
    destruct Hx as (y & <- & _). apply YRange_String_lacks_bar. }
  rewrite S, (ParseRanges_members_String r C (proj1 D)), (Validate_disjoint r D).
  f_equal. destruct r as [|a [|b l]]; try reflexivity.
  apply (gap_fixed (b :: l) a G).
Qed.

(** X16: a set in normal form (not empty, bounds without fraction, valid
    intervals, each starting after the end of the one before and more than
    one past it) is read back by [ParseRanges] from its rendering.  The
    empty set renders as the empty string, which [ParseRanges] refuses. *)
Theorem YangRange_String_roundtrip :
  (forall r, normal r -> ParseRanges (YangRange_String r) = (r, None))
  /\ YangRange_String [] = ""
  /\ ParseRanges "" = ([], Some ErrEmptyString).
Proof.
  split; [|split; reflexivity].
  intros r N. apply ParseRanges_String_normal. exact N.
Qed.

Lemma normal_example : normal [range_of (-5) (-1); range_of 3 3; range_of 8 20].
Proof.
  split; [discriminate|]. split; [|split; [split|]].
  - repeat constructor; try (vm_compute; discriminate);
      try reflexivity; intros [K|K]; discriminate.
  - repeat constructor.
  - simpl. repeat split.
  - simpl. repeat split.
Qed.

Lemma YangRange_String_roundtrip_witness :
  ParseRanges (YangRange_String [range_of (-5) (-1); range_of 3 3; range_of 8 20])
  = ([range_of (-5) (-1); range_of 3 3; range_of 8 20], None).
Proof.
  apply (proj1 YangRange_String_roundtrip). exact normal_example.
Defined.

Lemma Number_add_without_fraction :
  forall n,
    Number_add (without_fraction n) 1 = without_fraction (Number_add n 1).
Proof.
  intros [k v d]. unfold Number_add, without_fraction.
  destruct k; cbn [Kind Value Decimal]; try reflexivity.
  destruct (v <=? 1); reflexivity.
Qed.

Lemma neighbours_map :
  forall (R Q : YRange -> YRange -> Prop) (f : YRange -> YRange) l,
    (forall a b, R a b -> Q (f a) (f b)) ->
    neighbours R l -> neighbours Q (map f l).
Proof.
  intros R Q f l H. induction l as [|a [|b l] IH]; intros N; simpl; auto.
  simpl in N. destruct N as [Rab N]. split; [now apply H | now apply IH].
Qed.

Lemma float64_eqb_zero_zero :
  forall x y,
    float64.eqb x float64.zero = true -> float64.eqb y float64.zero = true ->
    float64.eqb x y = true.
Proof.
  intros x y Hx Hy. apply (float64_eqb_trans x float64.zero y); [exact Hx|].
  now rewrite float64_eqb_sym.
Qed.

Lemma YRange_without_fraction_String :
  forall a,
    float64.eqb (Decimal (Min a)) float64.zero = true ->
    float64.eqb (Decimal (Max a)) float64.zero = true ->
    YRange_String (YRange_without_fraction a) = YRange_String a.
Proof.
  intros [mn mx] Hn Hx. cbn [Min Max] in *.
  unfold YRange_String, YRange_without_fraction, Number_Equal. cbn [Min Max].
  unfold without_fraction at 1 2 3 4 5 6. cbn [Kind Value Decimal].
  now rewrite (float64_eqb_zero_zero _ _ Hn Hx).
Qed.

Lemma YRange_without_fraction_eqb :
  forall a,
    float64.eqb (Decimal (Min a)) float64.zero = true ->
    float64.eqb (Decimal (Max a)) float64.zero = true ->
    YRange_eqb (YRange_without_fraction a) a = true.
Proof.
  intros [mn mx] Hn Hx. cbn [Min Max] in *.
  unfold YRange_eqb, YRange_without_fraction, Number_Equal, without_fraction.
  cbn [Min Max Kind Value Decimal].
  rewrite !Z.eqb_refl, (float64_eqb_sym float64.zero (Decimal mn)), Hn,
    (float64_eqb_sym float64.zero (Decimal mx)), Hx.
  now destruct (Kind mn), (Kind mx).
Qed.

Lemma YRange_without_fraction_id :
  forall a,
    Decimal (Min a) = float64.zero -> Decimal (Max a) = float64.zero ->
    YRange_without_fraction a = a.
Proof.
  intros [[kn vn dn] [kx vx dx]] Hn Hx. cbn in *. now subst.
Qed.

(** X17: what [ParseRanges] returns it reads back from its own rendering,
    provided no bound has a Decimal component other than zero and no
    interval ends at the Positive Number 2^64-1: [ParseRanges] succeeds on
    the rendering and returns a set that [Equal] takes for equal to the
    first.  It is the first set itself when every Decimal component is the
    zero that a literal without a decimal point leaves; a Decimal component
    of -0.0, which a literal such as "+-0.0" leaves, is read back as +0.0. *)
Theorem ParseRanges_String_ParseRanges :
  forall s r,
    ParseRanges s = (r, None) ->
    Forall (fun a => float64.eqb (Decimal (Min a)) float64.zero = true
                     /\ float64.eqb (Decimal (Max a)) float64.zero = true) r ->
    Forall (fun a => ~ (Kind (Max a) = Positive /\ Value (Max a) = maxUint64)) r ->
    exists r',
      ParseRanges (YangRange_String r) = (r', None)
      /\ YangRange_Equal r' r = true
      /\ (Forall (fun a => Decimal (Min a) = float64.zero
                           /\ Decimal (Max a) = float64.zero) r ->
          r' = r).
Proof.
  intros s r H Dz W.
  destruct (ParseRanges_result_facts s r H) as (Ne & F & _ & G & _ & D).
  destruct (D W) as [V A].
  exists (map YRange_without_fraction r).
  assert (St : YangRange_String (map YRange_without_fraction r)
               = YangRange_String r).
  { unfold YangRange_String. f_equal. rewrite map_map.
    apply map_ext_in. intros a Ha. rewrite Forall_forall in Dz.
    destruct (Dz a Ha). now apply YRange_without_fraction_String. }
  assert (Nm : normal (map YRange_without_fraction r)).
  { split; [destruct r; [congruence | discriminate]|].
    split; [|split; [split|]].
    - apply Forall_forall. intros x Hx. apply in_map_iff in Hx.
      destruct Hx as (a & <- & Ha). rewrite Forall_forall in F.
      destruct (F a Ha) as (_ & C1 & C2).
      assert (Cn : forall n, constructible n -> canonical (without_fraction n)).
      { intros n C. split; [exact (constructible_range n C)|].
        split; [reflexivity|].
        destruct (constructible_sentinel n C) as [Smin Smax].
        cbn [without_fraction Kind Value].
        intros [K|K]; [rewrite (Smin K) | rewrite (Smax K)]; reflexivity. }
      split; now apply Cn.
    - apply Forall_forall. intros x Hx. apply in_map_iff in Hx.
      destruct Hx as (a & <- & Ha). rewrite Forall_forall in V.
      exact (V a Ha).
    - apply (neighbours_map apart apart); [|exact A]. intros a b Hab. exact Hab.
    - apply (neighbours_map gap gap); [|exact G]. intros a b Hab.
      unfold gap in *. cbn [YRange_without_fraction Min Max].
      rewrite Number_add_without_fraction. exact Hab. }
  split; [rewrite <- St; now apply ParseRanges_String_normal|].
  split.
  - apply YangRange_Equal_Forall2. rewrite Forall_forall in Dz.
    clear - Dz. induction r as [|a r IH]; [constructor|].
    cbn [map]. constructor.
    + destruct (Dz a (or_introl eq_refl)). now apply YRange_without_fraction_eqb.
    + apply IH. intros x Hx. apply Dz. now right.
  - intros Z. rewrite <- (map_id r) at 2. apply map_ext_in. intros a Ha.
    rewrite Forall_forall in Z. destruct (Z a Ha).
    now apply YRange_without_fraction_id.
Qed.

Lemma ParseRanges_String_ParseRanges_witness :
  exists r',
    ParseRanges
      (YangRange_String
         [mkYRange (mkNumber Positive 0 (S754_zero true)) (FromUint 5);
          range_of 7 9])
    = (r', None)
    /\ YangRange_Equal r'
         [mkYRange (mkNumber Positive 0 (S754_zero true)) (FromUint 5);
          range_of 7 9] = true.
Proof.
  destruct (ParseRanges_String_ParseRanges "7..9|+-0.0..5"
              [mkYRange (mkNumber Positive 0 (S754_zero true)) (FromUint 5);
               range_of 7 9]) as (r' & P & E & _).
  - vm_compute. reflexivity.
  - repeat constructor.
  - repeat constructor; intros [K V]; vm_compute in V; discriminate.
  - exists r'. split; assumption.
Defined.

(** ** Containment decides inclusion on disjoint sets *)

Lemma within_not_before :
  forall ss rr,
    YRange_Valid ss = true -> within ss rr ->
    Number_Less (Max rr) (Min ss) = false.
Proof.
  intros ss rr V [W1 W2]. unfold YRange_Valid in V. apply negb_true_iff in V.
  order_facts. apply Number_Less_false_iff. lia.
Qed.

(** On a disjoint base the advance stops at the interval that holds the
    candidate, and the intervals passed over hold no later candidate. *)
Lemma Contains_advance_finds :
  forall rest rr ss,
    disjoint (rr :: rest) ->
    YRange_Valid ss = true ->
    Exists (within ss) (rr :: rest) ->
    exists rr' rest',
      Contains_advance rest rr (Min ss) = Some (rr', rest')
      /\ within ss rr'
      /\ disjoint (rr' :: rest')
      /\ (forall c,
             Number_Less (Min c) (Min ss) = false ->
             YRange_Valid c = true ->
             Exists (within c) (rr :: rest) ->
             Exists (within c) (rr' :: rest')).
Proof.
  induction rest as [|r1 rest IH]; intros rr ss D V E.
  - inversion E as [? ? W|? ? W]; subst; [|inversion W].
    exists rr, []. cbn [Contains_advance].
    rewrite (within_not_before ss rr V W).
    split; [reflexivity|]. split; [exact W|]. split; [exact D | auto].
  - destruct D as [Vd Nd]. inversion Vd as [|? ? Vrr Vrest]; subst.
    pose proof (disjoint_first (r1 :: rest) rr Vrest Nd) as Fst.
    cbn [neighbours] in Nd. destruct Nd as [A Nd].
    cbn [Contains_advance].
    destruct (Number_Less (Max rr) (Min ss)) eqn:L.
    + assert (Skip : forall c,
                 Number_Less (Min c) (Min ss) = false ->
                 YRange_Valid c = true ->
                 Exists (within c) (rr :: r1 :: rest) ->
                 Exists (within c) (r1 :: rest)).
      { intros c Lc Vc Ec. inversion Ec as [? ? W|? ? W]; subst; [|exact W].
        exfalso. pose proof (within_not_before c rr Vc W) as B.
        order_facts. lia. }
      destruct (IH r1 ss (conj Vrest Nd) V (Skip ss (Number_Less_irrefl _) V E))
        as (rr' & rest' & Adv & W & D' & Later).
      exists rr', rest'.
      split; [exact Adv|]. split; [exact W|]. split; [exact D'|].
      intros c Lc Vc Ec. apply Later; auto.
    + exists rr, (r1 :: rest). split; [reflexivity|].
      split; [|split; [split; [exact Vd | split; assumption] | auto]].
      inversion E as [? ? W|? ? W]; subst; [exact W|].
      exfalso. apply Exists_exists in W. destruct W as (rj & Ij & [W1 W2]).
      rewrite Forall_forall in Fst. specialize (Fst rj Ij).
      order_facts. lia.
Qed.

Lemma Contains_loop_complete :
  forall s rr rest,
    disjoint (rr :: rest) ->
    sorted_by_low s ->
    Forall (fun ss => YRange_Valid ss = true /\ Exists (within ss) (rr :: rest)) s ->
    Contains_loop s rr rest = true.
Proof.
  induction s as [|ss s IH]; intros rr rest D S F; [reflexivity|].
  inversion F as [|? ? [V E] F']; subst.
  inversion S as [|? ? S' Low]; subst.
  cbn [Contains_loop]. unfold Contains_locate.
  destruct (NumberKind_eqb (Kind (Min ss)) MinNumber) eqn:K; cbn [negb].
  - rewrite orb_true_r. now apply IH.
  - destruct (Contains_advance_finds rest rr ss D V E)
      as (rr' & rest' & Adv & [W1 W2] & D' & Later).
    rewrite Adv, W1, W2. cbn [orb].
    assert (T : Contains_loop s rr' rest' = true).
    { apply IH; [exact D' | exact S'|].
      rewrite Forall_forall in *. intros c Hc.
      destruct (F' c Hc) as [Vc Ec]. split; [exact Vc|].
      apply Later; auto. }
    rewrite T. now destruct (_ || _).
Qed.

(** X18: on a disjoint base and a candidate sorted by low bound, the walk of
    [Contains] finds every inclusion: if each interval of the candidate is
    valid and lies inside some interval of the base, [Contains] returns
    true. *)
Theorem Contains_complete :
  forall r s,
    disjoint r ->
    sorted_by_low s ->
    Forall (fun ss => YRange_Valid ss = true /\ Exists (within ss) r) s ->
    Contains r s = true.
Proof.
  intros r s D S F. unfold Contains.
  destruct s as [|s0 s']; [reflexivity|].
  destruct r as [|rr rest]; [reflexivity|].
  now apply Contains_loop_complete.
Qed.

Lemma Contains_complete_witness :
  Contains [range_of 0 9; range_of 20 29] [range_of 2 3; range_of 5 9; range_of 20 20]
  = true.
Proof.
  apply Contains_complete.
  - split; [repeat constructor | simpl; repeat split].
  - repeat constructor.
  - repeat constructor;
      solve [ apply Exists_cons_hd; split; reflexivity
            | apply Exists_cons_tl, Exists_cons_hd; split; reflexivity ].
Defined.

(** ** The default ranges *)

(** X19: none of the default ranges panics when the package is
    initialised, and each is the one interval of its type.  The range of a
    narrower integer type is contained in the range of the next wider one of
    the same signedness and does not contain it.  The decimal64 default
    min..max contains the two 64-bit ranges, and, its two edges being
    sentinels, is also accepted as contained in them. *)
Theorem default_ranges :
  Int8Range = inl [range_of (-128) 127]
  /\ Int16Range = inl [range_of (-32768) 32767]
  /\ Int32Range = inl [range_of (-2147483648) 2147483647]
  /\ Int64Range = inl [range_of MinInt64 MaxInt64]
  /\ Uint8Range = inl [mkYRange (FromUint 0) (FromUint 255)]
  /\ Uint16Range = inl [mkYRange (FromUint 0) (FromUint 65535)]
  /\ Uint32Range = inl [mkYRange (FromUint 0) (FromUint 4294967295)]
  /\ Uint64Range = inl [mkYRange (FromUint 0) (FromUint maxUint64)]
  /\ Decimal64Range = inl [mkYRange minNumber maxNumber]
  /\ (forall wide narrow,
         In (inl wide, inl narrow)
            [(Int16Range, Int8Range); (Int32Range, Int16Range);
             (Int64Range, Int32Range); (Uint16Range, Uint8Range);
             (Uint32Range, Uint16Range); (Uint64Range, Uint32Range)] ->
         Contains wide narrow = true /\ Contains narrow wide = false)
  /\ (forall wide,
         In (inl wide) [Int64Range; Uint64Range] ->
         Contains [mkYRange minNumber maxNumber] wide = true
         /\ Contains wide [mkYRange minNumber maxNumber] = true).
Proof.
  repeat (split; [vm_compute; reflexivity|]). split.
  - intros wide narrow H. cbn [In] in H.
    repeat (destruct H as [H|H];
            [vm_compute in H; inversion H; subst; split; vm_compute; reflexivity|]).
    contradiction.
  - intros wide H. cbn [In] in H.
    repeat (destruct H as [H|H];
            [vm_compute in H; inversion H; subst; split; vm_compute; reflexivity|]).
    contradiction.
Qed.

Lemma default_ranges_witness :
  Contains [range_of (-32768) 32767] [range_of (-128) 127] = true
  /\ Contains [range_of (-128) 127] [range_of (-32768) 32767] = false.
Proof.
  apply (proj1 (proj2 (proj2 (proj2 (proj2 (proj2 (proj2 (proj2 (proj2 (proj2
           default_ranges))))))))) [range_of (-32768) 32767] [range_of (-128) 127]).
  left. vm_compute. reflexivity.
Defined.

(** ** More on equality, validation and signs *)

Lemma Number_Equal_String :
  forall n m, Number_Equal n m = true -> Number_String n = Number_String m.
Proof.
  intros [kn vn dn] [km vm dm] E. unfold Number_Equal in E. simpl in E.
  apply andb_true_iff in E. destruct E as [E _].
  apply andb_true_iff in E. destruct E as [K V].
  apply NumberKind_eqb_eq in K. apply Z.eqb_eq in V. now subst.
Qed.

Lemma YRange_eqb_String :
  forall a b, YRange_eqb a b = true -> YRange_String a = YRange_String b.
Proof.
  intros a b E. unfold YRange_eqb in E. apply andb_true_iff in E.
  destruct E as [En Ex]. unfold YRange_String.
  rewrite (Number_Equal_String _ _ En), (Number_Equal_String _ _ Ex).
  assert (Q : Number_Equal (Min a) (Max a) = Number_Equal (Min b) (Max b)).
  { destruct (Number_Equal (Min a) (Max a)) eqn:Ea,
             (Number_Equal (Min b) (Max b)) eqn:Eb; try reflexivity.
    - rewrite <- Eb. symmetry.
      apply (Number_Equal_trans (Min b) (Min a) (Max b));
        [now rewrite Number_Equal_sym|].
      now apply (Number_Equal_trans (Min a) (Max a) (Max b)).
    - rewrite <- Ea.
      apply (Number_Equal_trans (Min a) (Min b) (Max a)); [exact En|].
      apply (Number_Equal_trans (Min b) (Max b) (Max a)); [exact Eb|].
      now rewrite Number_Equal_sym. }
  now rewrite Q.
Qed.

(** X20: two sets that [Equal] takes for equal have the same rendering. *)
Theorem YangRange_Equal_String :
  forall r q,
    YangRange_Equal r q = true -> YangRange_String r = YangRange_String q.
Proof.
  intros r q E. apply YangRange_Equal_Forall2 in E. unfold YangRange_String.
  f_equal. induction E as [|a b r q Eab _ IH]; [reflexivity|].
  cbn [map]. now rewrite (YRange_eqb_String a b Eab), IH.
Qed.

Lemma YangRange_Equal_String_witness :
  YangRange_String [mkYRange (FromInt 1) (mkNumber Positive 5 (S754_zero true))]
  = YangRange_String [range_of 1 5].
Proof.
  apply YangRange_Equal_String. reflexivity.
Defined.

(** X21: the three outcomes of [Validate], on the set as sorted: it returns
    nil when the set is empty or its first interval is valid and no later
    interval starts below the end of the first; "invalid number" when the
    first interval is not valid; "overlapping ranges" when the first is
    valid and some later interval starts below its end.  Later intervals are
    compared with the first one only, and their own validity is not
    looked at. *)
Theorem Validate_outcome :
  forall r,
    match sort_Sort r with
    | [] => Validate r = ([], None)
    | r0 :: rest =>
        fst (Validate r) = r0 :: rest
        /\ (snd (Validate r) = None <->
            YRange_Valid r0 = true
            /\ Forall (fun n => Number_Less (Min n) (Max r0) = false) rest)
        /\ (snd (Validate r) = Some ErrInvalidNumber <-> YRange_Valid r0 = false)
        /\ (snd (Validate r) = Some ErrOverlapping <->
            YRange_Valid r0 = true
            /\ Exists (fun n => Number_Less (Min n) (Max r0) = true) rest)
    end.
Proof.
  intros r. unfold Validate. destruct (sort_Sort r) as [|r0 rest]; [reflexivity|].
  assert (L : forall l,
             (Validate_loop r0 l = None \/ Validate_loop r0 l = Some ErrOverlapping)
             /\ (Validate_loop r0 l = Some ErrOverlapping <->
                 Exists (fun n => Number_Less (Min n) (Max r0) = true) l)).
  { induction l as [|n l [IH1 IH2]]; simpl.
    - split; [now left|]. split; [discriminate | inversion 1].
    - destruct (Number_Less (Min n) (Max r0)) eqn:E.
      + split; [now right|]. split; [now left | reflexivity].
      + split; [exact IH1|]. rewrite IH2.
        split; [now right | inversion 1; subst; [congruence | assumption]]. }
  destruct (L rest) as [L1 L2].
  destruct (YRange_Valid r0); cbn [negb fst snd].
  - split; [reflexivity|]. split; [|split].
    + rewrite Validate_loop_passes. tauto.
    + split; [|discriminate]. destruct L1 as [E|E]; rewrite E; discriminate.
    + rewrite L2. tauto.
  - split; [reflexivity|]. split; [|split].
    + split; [discriminate | intros [H _]; discriminate].
    + tauto.
    + split; [discriminate | intros [H _]; discriminate].
Qed.

Lemma Validate_outcome_witness :
  snd (Validate [range_of 1 5; range_of 10 7]) = None.
Proof.
  pose proof (Validate_outcome [range_of 1 5; range_of 10 7]) as H.
  change (sort_Sort [range_of 1 5; range_of 10 7])
    with [range_of 1 5; range_of 10 7] in H.
  apply (proj1 (proj2 H)). split; [reflexivity | repeat constructor].
Defined.

Lemma plus_plain : plain "+"%char.
Proof. split; vm_compute; reflexivity. Qed.

(** X22: a plus sign in front of a string of digits is dropped: the string
    is read as it is without the sign. *)
Theorem ParseNumber_plus :
  forall s,
    digits_only s = true -> s <> "" ->
    ParseNumber (String "+" s) = ParseNumber s.
Proof.
  intros s D N. rewrite (ParseNumber_digits s D N). unfold ParseNumber.
  destruct (digits_only_last s D N) as (c' & r' & Er & Dc').
  rewrite (TrimSpace_plain (String "+" s) "+"%char s c' (r' ++ "+")%string eq_refl);
    [| now rewrite rev_cons, Er | exact plus_plain | now apply digit_plain].
  destruct s as [|c r]; [congruence|].
  replace (String "+" (String c r) =? "max")%string with false by reflexivity.
  replace (String "+" (String c r) =? "min")%string with false by reflexivity.
  replace (String "+" (String c r) =? "")%string with false by reflexivity.
  replace (String "+" (String c r) =? "+")%string with false by reflexivity.
  replace (String "+" (String c r) =? "-")%string with false by reflexivity.
  cbn [orb]. change (byte_of "+" =? 43) with true. cbv iota.
  rewrite (Split_digits _ D). cbn [List.length Nat.eqb].
  destruct (strconv.ParseUint (String c r)); reflexivity.
Qed.

Lemma ParseNumber_plus_witness :
  ParseNumber "+42" = ParseNumber "42".
Proof.
  apply (ParseNumber_plus "42"); [reflexivity | discriminate].
Defined.

(** ** Coalescing keeps the set of values *)

(** No value lies strictly between a Number and the Number one above. *)
Lemma Number_add_one_least :
  forall n x,
    incrementable n -> signed_magnitude x ->
    Number_Less n x = true ->
    Number_Less x (Number_add n 1) = false.
Proof.
  intros [kn vn dn] [kx vx dx] (Rn & Zn & Wn) (Rx & Zx) L.
  destruct int64_bounds as (_ & _ & _ & E4). rewrite E4 in *.
  cbn [Kind Value Decimal] in *.
  assert (Nx : kx = Negative -> vx <> 0) by (intros K E; apply Zx; now split).
  assert (Nn : kn = Negative -> vn <> 0) by (intros K E; apply Zn; now split).
  assert (Mn : kn = Positive -> vn <> 18446744073709551615)
    by (intros K E; apply Wn; now split).
  clear Zx Zn Wn.
  apply Number_Less_iff in L. apply Number_Less_false_iff.
  unfold Number_add, to_uint64, Number_class, Number_rank in *.
  cbn [Kind Value Decimal] in *.
  destruct kn; cbn [Kind Value Decimal] in *.
  - specialize (Mn eq_refl). rewrite Z.mod_small by lia.
    destruct kx; try specialize (Nx eq_refl); lia.
  - specialize (Nn eq_refl).
    destruct (Z.leb_spec vn 1); cbn [Kind Value Decimal];
      rewrite Z.mod_small by lia;
      destruct kx; try specialize (Nx eq_refl); lia.
  - destruct kx; lia.
  - destruct kx; lia.
Qed.

Lemma coalesce_loop_exact :
  forall rest cur x,
    Forall (fun a => incrementable (Max a)) (cur :: rest) ->
    signed_magnitude x ->
    in_set x (coalesce_loop cur rest) ->
    in_set x (cur :: rest).
Proof.
  unfold in_set.
  induction rest as [|r1 rest IH]; intros cur x F Sx H; simpl in H; [exact H|].
  inversion F as [|? ? Fc F1]; subst. inversion F1 as [|? ? Fr Fs]; subst.
  destruct (Number_Less (Number_add (Max cur) 1) (Min r1)) eqn:G.
  - inversion H as [? ? Hc|? ? Hr]; subst; [now left | right; now apply IH].
  - destruct (Number_Less (Max cur) (Max r1)) eqn:L.
    + assert (F' : Forall (fun a => incrementable (Max a))
                     (mkYRange (Min cur) (Max r1) :: rest))
        by (constructor; assumption).
      specialize (IH (mkYRange (Min cur) (Max r1)) x F' Sx H).
      inversion IH as [? ? [H1 H2]|? ? Hr]; subst; [|right; now right].
      cbn [Min Max] in H1, H2.
      destruct (Number_Less (Max cur) x) eqn:B.
      * right; left. split; [|exact H2].
        pose proof (Number_add_one_least (Max cur) x Fc Sx B) as A.
        order_facts. apply Number_Less_false_iff. lia.
      * left. split; assumption.
    + assert (F' : Forall (fun a => incrementable (Max a)) (cur :: rest))
        by (constructor; assumption).
      specialize (IH cur x F' Sx H).
      inversion IH as [? ? Hc|? ? Hr]; subst; [now left | right; now right].
Qed.

(** X23: [coalesce] adds nothing: when no high bound of the set is a
    negative zero or the Positive Number 2^64-1, a Number other than a
    negative zero that lies in some interval of the result lies in some
    interval of the set. *)
Theorem coalesce_exact :
  forall r x,
    Forall (fun a => incrementable (Max a)) r ->
    signed_magnitude x ->
    in_set x (coalesce r) ->
    in_set x r.
Proof.
  intros [|r0 [|r1 rest]] x F Sx H; try exact H.
  now apply coalesce_loop_exact.
Qed.

Lemma coalesce_exact_witness :
  in_set (FromInt 6) [range_of 1 5; range_of 6 10].
Proof.
  apply coalesce_exact.
  - repeat constructor; vm_compute; try discriminate;
      intros [K V]; discriminate.
  - split; [vm_compute; discriminate | intros [K V]; discriminate].
  - left. split; reflexivity.
Defined.
